(** * Helper functions of the OpenVINO notebooks, embedded and verified

    The notebooks are glue code around library calls; the code of the
    repository itself is a handful of helpers:

    - 245-typo-detector: [token_to_words], [get_typo_indexes],
      [sentence_split], [show_typos];
    - 227-whisper-nncf-quantize: [calibration_data_collection],
      [encoder_forward], [decoder_forward];
    - 244-named-entity-recognition: the cell that launches the demo.

    Python values are modelled as follows: [str] as the [string] of its
    UTF-8 bytes (so that [ascii] is a byte), [int] as [Z],
    a [dict] with [str] keys as [gmap string Z], a [list] as [list], and a
    raised exception as the [Raise] branch of a result type. *)

From Stdlib Require Import ZArith String Ascii List Lia.
From stdpp Require Import gmap strings list fin_maps.

Local Open Scope string_scope.
Local Open Scope list_scope.
Local Open Scope Z_scope.

(** ** Python results: a value or a raised exception *)

(** The exceptions that the modelled code can meet: the two that its own
    subscripts raise, exceptions raised inside a library call (named by their
    class), and the exceptions that do not derive from [Exception]
    (KeyboardInterrupt, SystemExit), which [except Exception] lets through. *)
Inductive error : Type :=
  | IndexError
  | KeyError
  | LibraryError (class_name : string)
  | NonException (class_name : string).

(** [isinstance(e, Exception)] *)
Definition is_Exception (e : error) : bool :=
  match e with
  | NonException _ => false
  | _ => true
  end.

Inductive res (A : Type) : Type :=
  | Ok (a : A)
  | Raise (e : error).
Arguments Ok {A} a.
Arguments Raise {A} e.

#[global] Instance res_ret : MRet res := fun _ a => Ok a.
#[global] Instance res_bind : MBind res := fun _ _ k r =>
  match r with
  | Ok a => k a
  | Raise e => Raise e
  end.

(** A [for] loop whose body can raise: the first exception ends the loop. *)
Fixpoint for_each {A S} (body : S -> A -> res S) (l : list A) (s : S) : res S :=
  match l with
  | [] => Ok s
  | x :: l' => s' ← body s x; for_each body l' s'
  end.

(** ** 245-typo-detector: [token_to_words] *)

(** [token.startswith(pre)] *)
Definition startswith (token pre : string) : bool := String.prefix pre token.

(** One iteration of the loop of [token_to_words], on the pair of the two
    local variables [word_count] and [map_to_words]. *)
Definition token_to_words_step (st : Z * gmap string Z) (token : string)
  : Z * gmap string Z :=
  let '(word_count, map_to_words) := st in
  if startswith token "##"
  then (word_count, <[token := word_count]> map_to_words)
  else (word_count + 1, <[token := word_count + 1]> map_to_words).

Definition token_to_words_loop (tokens : list string) (st : Z * gmap string Z)
  : Z * gmap string Z :=
  fold_left token_to_words_step tokens st.

Definition token_to_words (tokens : list string) : gmap string Z :=
  snd (token_to_words_loop tokens (-1, ∅)).

(** *** Vocabulary of the statements about [token_to_words] *)

(** A token that does not start with '##' opens a new word. *)
Definition opens_word (token : string) : bool := negb (startswith token "##").

(** Number of words of a token list: the tokens that do not start with '##'. *)
Definition count_words (tokens : list string) : nat :=
  length (List.filter opens_word tokens).

(** The number of words that one token adds. *)
Definition words_of (token : string) : nat :=
  if opens_word token then 1%nat else 0%nat.

(** The index of the word that the token at position [i] belongs to: the
    number of word-opening tokens at or before [i], minus one. *)
Definition word_index_at (tokens : list string) (i : nat) : Z :=
  Z.of_nat (count_words (take (S i) tokens)) - 1.

(** Position of the last occurrence of a token string in the list. *)
Fixpoint last_index (t : string) (tokens : list string) : option nat :=
  match tokens with
  | [] => None
  | x :: rest =>
      match last_index t rest with
      | Some i => Some (S i)
      | None => if decide (x = t) then Some 0%nat else None
      end
  end.

(** Position of the nearest token at or before position [i] that opens a
    word. *)
Fixpoint word_start_before (tokens : list string) (i : nat) : option nat :=
  match tokens, i with
  | [], _ => None
  | x :: _, O => if opens_word x then Some 0%nat else None
  | x :: rest, S i' =>
      match word_start_before rest i' with
      | Some j => Some (S j)
      | None => if opens_word x then Some 0%nat else None
      end
  end.

(** ** 245-typo-detector: [get_typo_indexes] *)

(** [l[i]] on a Python list: a negative index counts from the end, an index
    out of range raises IndexError. *)
Definition list_getitem {A} (l : list A) (i : Z) : res A :=
  let n := Z.of_nat (length l) in
  let j := if bool_decide (i < 0) then i + n else i in
  if bool_decide (j < 0) then Raise IndexError
  else match l !! Z.to_nat j with
       | Some x => Ok x
       | None => Raise IndexError
       end.

(** [d[k]] on a Python dict: a missing key raises KeyError. *)
Definition dict_getitem (d : gmap string Z) (k : string) : res Z :=
  match d !! k with
  | Some v => Ok v
  | None => Raise KeyError
  end.

(** [l[1:-1]]: everything but the first and the last element (empty when
    there are fewer than three elements). *)
Definition slice_1_m1 {A} (l : list A) : list A :=
  drop 1 (take (length l - 1) l).

Section GetTypoIndexes.
(** A row of the inference result is the vector of class scores of one
    token position; [argmax] is numpy's, a library function on such a
    row.  The scores are floating point and only their argmax is used, so
    both are taken as parameters; [np.argmax] raises on an empty vector
    only, and the class dimension of the model output is not empty, so
    [argmax] is a total function. *)
Context {row : Type} (argmax : row -> Z).

(** Body of the [for i in result_list] loop, on the local variables
    [wrong_words] and [c]. *)
Definition get_typo_indexes_body (map_to_words : gmap string Z)
    (tokens : list string) (st : list Z * Z) (i : row) : res (list Z * Z) :=
  let '(wrong_words, c) := st in
  let prob := argmax i in
  if bool_decide (prob = 1) then
    token ← list_getitem tokens c;
    w ← dict_getitem map_to_words token;
    if bool_decide (w ∉ wrong_words) then
      token' ← list_getitem tokens c;
      w' ← dict_getitem map_to_words token';
      Ok (wrong_words ++ [w'], c + 1)
    else Ok (wrong_words, c + 1)
  else Ok (wrong_words, c + 1).

(** [result] is the batch of the model output: [result[0]] is the list of
    rows of the only sentence, one row per token plus the two special
    positions. *)
Definition get_typo_indexes (result : list (list row))
    (map_to_words : gmap string Z) (tokens : list string) : res (list Z) :=
  first ← list_getitem result 0;
  let result_list := slice_1_m1 first in
  st ← for_each (get_typo_indexes_body map_to_words tokens) result_list ([], 0);
  Ok (fst st).

(** *** Vocabulary of the statements about [get_typo_indexes] *)

(** The word indices of the flagged positions, in order, with repetitions:
    what the loop would collect without its membership test. *)
Definition flagged_words (map_to_words : gmap string Z) (tokens : list string)
    (result_list : list row) : list Z :=
  omap (fun '(i, t) =>
          if bool_decide (argmax i = 1) then map_to_words !! t else None)
       (zip result_list tokens).
End GetTypoIndexes.

(** Keeps the first occurrence of every element. *)
Fixpoint first_occurrences (seen : list Z) (l : list Z) : list Z :=
  match l with
  | [] => []
  | x :: l' =>
      if bool_decide (x ∈ seen) then first_occurrences seen l'
      else x :: first_occurrences (seen ++ [x]) l'
  end.

(** A concrete row for the examples: a non-empty vector of scores, integers
    standing for the floats, and the index of its first maximum. *)
Definition scores : Type := Z * list Z.

Fixpoint argmax_from (best : Z) (best_at next : Z) (l : list Z) : Z :=
  match l with
  | [] => best_at
  | x :: l' =>
      if bool_decide (best < x) then argmax_from x next (next + 1) l'
      else argmax_from best best_at (next + 1) l'
  end.

Definition np_argmax (r : scores) : Z := argmax_from (fst r) 0 1 (snd r).

(** An inference result for the examples: the special position, then one row
    per token, then the special position; a row [(0, [1])] flags a typo. *)
Definition demo_tokens : list string := ["he"; "st"; "##gr"; "##ug"; "."].
Definition demo_result : list (list scores) :=
  [[(1, [0]); (1, [0]); (0, [1]); (0, [1]); (0, [1]); (1, [0]); (1, [0])]].

(** ** 245-typo-detector: [sentence_split] *)

(** The character class [[',. ]] of the pattern. *)
Definition is_delimiter (c : ascii) : bool :=
  bool_decide (c = "'"%char) || bool_decide (c = ","%char)
  || bool_decide (c = "."%char) || bool_decide (c = " "%char).

(** [re.split("([',. ])", s)]: the text between the delimiters and, the group
    being a capturing one, the delimiters themselves, alternating; the text
    between two adjacent delimiters is the empty string. *)
Fixpoint re_split (s : string) : list string :=
  match s with
  | EmptyString => [""]
  | String c s' =>
      if is_delimiter c then "" :: String c "" :: re_split s'
      else match re_split s' with
           | piece :: rest => String c piece :: rest
           | [] => [String c ""]
           end
  end.

Definition sentence_split (sentence : string) : list string :=
  let splitted := re_split sentence in
  List.filter (fun x => negb (String.eqb x " ") && negb (String.eqb x "")) splitted.

(** *** Vocabulary of the statements about [sentence_split] *)

(** The test of the list comprehension of [sentence_split]. *)
Definition kept (x : string) : bool :=
  negb (String.eqb x " ") && negb (String.eqb x "").

(** The first piece of a split does not begin with a delimiter. *)
Definition starts_plain (p : string) : Prop :=
  match p with
  | EmptyString => True
  | String c _ => is_delimiter c = false
  end.

(** ["".join(l)] *)
Definition join (l : list string) : string := fold_right String.append "" l.

(** The string without its space characters. *)
Fixpoint remove_spaces (s : string) : string :=
  match s with
  | EmptyString => ""
  | String c s' =>
      if bool_decide (c = " "%char) then remove_spaces s'
      else String c (remove_spaces s')
  end.

(** ** 245-typo-detector: [show_typos] *)

(** [s.replace(old, new)] for a non-empty [old]: the occurrences of [old] are
    found from left to right and do not overlap.  [skip] counts the
    characters of an occurrence just replaced that are still to be passed. *)
Fixpoint replace_from (old new : string) (skip : nat) (s : string) : string :=
  match s with
  | EmptyString => ""
  | String c s' =>
      match skip with
      | S k => replace_from old new k s'
      | O =>
          if String.prefix old s
          then new +:+ replace_from old new (String.length old - 1) s'
          else String c (replace_from old new 0 s')
      end
  end.

(** [s.replace("", new)] puts [new] before every character and at the end. *)
Fixpoint replace_empty (new : string) (s : string) : string :=
  match s with
  | EmptyString => new
  | String c s' => new +:+ String c (replace_empty new s')
  end.

(** [s.replace(old, new)] *)
Definition str_replace (s old new : string) : string :=
  match old with
  | EmptyString => replace_empty new s
  | _ => replace_from old new 0 s
  end.

(** The loop [for typo in typos: detected = detected.replace(typo, f'<i>{typo}</i>')],
    shared by both versions of [show_typos]. *)
Definition tag (typo : string) : string := "<i>" +:+ typo +:+ "</i>".

Definition mark_typos (sentence : string) (typos : list string) : string :=
  fold_left (fun detected typo => str_replace detected typo (tag typo))
            typos sentence.

(** The part of [show_typos] (OpenVINO IR version) after the typo indexes are
    known: the string printed after "[Detected]: ". *)
Definition show_typos_detected (sentence : string) (typo_indexes : list Z)
  : res string :=
  let sentence_words := sentence_split sentence in
  typos ← mapM (list_getitem sentence_words) typo_indexes;
  Ok (mark_typos sentence typos).

Section ShowTypos.
(** The tokenizer and the compiled model are the libraries'. *)
Context {row : Type} (argmax : row -> Z).
Context (tokenize : string -> list string).
Context (infer : string -> list (list row)).

Definition show_typos (sentence : string) : res string :=
  let tokens := tokenize sentence in
  let map_to_words := token_to_words tokens in
  let result := infer sentence in
  typo_indexes ← get_typo_indexes argmax result map_to_words tokens;
  show_typos_detected sentence typo_indexes.
End ShowTypos.

(** A Python string is modelled by the string of the bytes of its UTF-8
    encoding.  Its characters, which [len] counts and a slice selects, are
    its code points: a byte that is not a continuation byte (10xxxxxx),
    with the continuation bytes that follow it. *)
Definition is_continuation (c : ascii) : bool :=
  match c with
  | Ascii _ _ _ _ _ _ b6 b7 => b7 && negb b6
  end.

Fixpoint code_points (s : string) : list string :=
  match s with
  | EmptyString => []
  | String c s' =>
      match s' with
      | String c' _ =>
          if is_continuation c'
          then match code_points s' with
               | g :: gs => String c g :: gs
               | [] => [String c ""]
               end
          else String c "" :: code_points s'
      | EmptyString => [String c ""]
      end
  end.

(** [len(s)] *)
Definition str_len (s : string) : Z := Z.of_nat (length (code_points s)).

(** [s[start:end]] on a Python string, for any two integers: a negative
    offset counts from the end, and both are cut to the string. *)
Definition str_slice (s : string) (start stop : Z) : string :=
  let chars := code_points s in
  let n := Z.of_nat (length chars) in
  let clamp i := if bool_decide (i < 0) then Z.max (i + n) 0 else Z.min i n in
  let a := clamp start in
  let b := clamp stop in
  join (take (Z.to_nat (b - a)) (drop (Z.to_nat a) chars)).

(** [show_typos] of the Optimum version: the pipeline [nlp] returns the spans
    of the typos as pairs of a start and an end offset. *)
Definition show_typos_spans (sentence : string) (spans : list (Z * Z)) : string :=
  let typos := List.map (fun r => str_slice sentence (fst r) (snd r)) spans in
  mark_typos sentence typos.

(** *** Vocabulary of the statements about [show_typos] *)

(** The positions at which [t] occurs in [s] as a substring. *)
Fixpoint occurrences_from (t : string) (at_ : nat) (s : string) : list nat :=
  (if String.prefix t s then [at_] else [])
  ++ match s with
     | EmptyString => []
     | String _ s' => occurrences_from t (S at_) s'
     end.

Definition occurrences (t s : string) : list nat := occurrences_from t 0 s.

(** The first [k] characters of a string, and the string without them. *)
Fixpoint take_chars (k : nat) (s : string) : string :=
  match k, s with
  | S k', String c s' => String c (take_chars k' s')
  | _, _ => ""
  end.

Fixpoint drop_chars (k : nat) (s : string) : string :=
  match k, s with
  | S k', String _ s' => drop_chars k' s'
  | _, _ => s
  end.

(** [s] with its only occurrence of the non-empty [t] wrapped in the tag and
    every other character kept; nothing when [t] is empty or does not occur
    exactly once in [s]. *)
Definition wrap_once (s t : string) : option string :=
  match t, occurrences t s with
  | String _ _, [k] =>
      Some (take_chars k s +:+ tag t +:+ drop_chars (k + String.length t) s)
  | _, _ => None
  end.

(** The typos wrapped one after the other, as long as each of them occurs
    exactly once in the string annotated so far. *)
Fixpoint wrap_each_once (s : string) (typos : list string) : option string :=
  match typos with
  | [] => Some s
  | t :: rest => s' ← wrap_once s t; wrap_each_once s' rest
  end.

(** [r] is [s] with every occurrence of [old] replaced by [new], the
    occurrences found from left to right and not overlapping: where [old]
    does not occur, nothing changes; otherwise the text before the leftmost
    occurrence is kept, that occurrence becomes [new], and the rest of the
    string after it is treated in the same way. *)
Inductive replaced_all (old new : string) : string -> string -> Prop :=
  | replaced_none (s : string) :
      occurrences old s = [] ->
      replaced_all old new s s
  | replaced_leftmost (s : string) (k : nat) (later : list nat) (r : string) :
      occurrences old s = k :: later ->
      replaced_all old new (drop_chars (k + String.length old) s) r ->
      replaced_all old new s (take_chars k s +:+ new +:+ r).

(** [detected] is [s] after every occurrence of each of the typos, taken in
    turn, has been wrapped in the tag. *)
Inductive marked : string -> list string -> string -> Prop :=
  | marked_nil (s : string) : marked s [] s
  | marked_cons (s : string) (typo : string) (rest : list string)
      (s' detected : string) :
      replaced_all typo (tag typo) s s' ->
      marked s' rest detected ->
      marked s (typo :: rest) detected.

(** The sentence with exactly the words at the given indices of
    [sentence_split] wrapped, every other character kept: the pieces of the
    split are walked in order, the words are numbered from 0, and spaces and
    empty pieces are passed without a number. *)
Fixpoint mark_pieces_at (indices : list Z) (k : Z) (pieces : list string) : string :=
  match pieces with
  | [] => ""
  | x :: rest =>
      if String.eqb x " " || String.eqb x ""
      then x +:+ mark_pieces_at indices k rest
      else (if bool_decide (k ∈ indices) then tag x else x)
           +:+ mark_pieces_at indices (k + 1) rest
  end.

Definition mark_words_at (sentence : string) (indices : list Z) : string :=
  mark_pieces_at indices 0 (re_split sentence).

(** ** 227-whisper-nncf-quantize: collection of the calibration data *)

Module Whisper.
Section Whisper.
(** [tensor] is a torch tensor, [feed] the dictionary given to the compiled
    decoder, [model] the wrapper object bound to [self]. *)
Context {tensor feed cache model : Type}.

(** The three globals of the cell. *)
Record globals : Type := {
  COLLECT_CALIBRATION_DATA : bool;
  encoder_calibration_data : list tensor;
  decoder_calibration_data : list feed
}.

(** State of the cell after [COLLECT_CALIBRATION_DATA = False] and the two
    [= []]. *)
Definition initial_globals : globals :=
  {| COLLECT_CALIBRATION_DATA := false;
     encoder_calibration_data := [];
     decoder_calibration_data := [] |}.

Definition set_COLLECT_CALIBRATION_DATA (b : bool) (g : globals) : globals :=
  {| COLLECT_CALIBRATION_DATA := b;
     encoder_calibration_data := encoder_calibration_data g;
     decoder_calibration_data := decoder_calibration_data g |}.

Definition append_encoder_calibration_data (mel : tensor) (g : globals) : globals :=
  {| COLLECT_CALIBRATION_DATA := COLLECT_CALIBRATION_DATA g;
     encoder_calibration_data := encoder_calibration_data g ++ [mel];
     decoder_calibration_data := decoder_calibration_data g |}.

Definition append_decoder_calibration_data (feed_dict : feed) (g : globals) : globals :=
  {| COLLECT_CALIBRATION_DATA := COLLECT_CALIBRATION_DATA g;
     encoder_calibration_data := encoder_calibration_data g;
     decoder_calibration_data := decoder_calibration_data g ++ [feed_dict] |}.

(** Code that runs on the globals and returns or raises. *)
Definition cell (A : Type) : Type := globals -> res A * globals.

(** The generator of [calibration_data_collection] up to its [yield],
    which [__enter__] runs. *)
Definition calibration_data_collection_enter : cell unit :=
  fun g => (Ok tt, set_COLLECT_CALIBRATION_DATA true g).

(** The [finally] clause, which [__exit__] runs when the body has returned
    and also when it has raised: [contextmanager] throws the exception
    into the generator at the [yield] and lets it out again after. *)
Definition calibration_data_collection_finally : cell unit :=
  fun g => (Ok tt, set_COLLECT_CALIBRATION_DATA false g).

(** [with calibration_data_collection(): body] *)
Definition calibration_data_collection {A} (body : cell A) : cell A :=
  fun g =>
    let '(_, g1) := calibration_data_collection_enter g in
    let '(r, g2) := body g1 in
    let '(_, g3) := calibration_data_collection_finally g2 in
    (r, g3).

(** The library calls of the two forward functions. *)
Context (encoder_infer : model -> tensor -> res tensor).
Context (make_feed_dict : tensor -> tensor -> res feed).
Context (preprocess_kv_cache_inputs : model -> feed -> option cache -> res feed).
Context (decoder_infer : model -> feed -> res tensor).

Definition encoder_forward (self : model) (mel : tensor) : cell tensor :=
  fun g =>
    let g1 := if COLLECT_CALIBRATION_DATA g
              then append_encoder_calibration_data mel g else g in
    (encoder_infer self mel, g1).

Definition decoder_forward (self : model) (x xa : tensor)
    (kv_cache : option cache) : cell tensor :=
  fun g =>
    match make_feed_dict x xa with
    | Raise e => (Raise e, g)
    | Ok feed_dict =>
        match preprocess_kv_cache_inputs self feed_dict kv_cache with
        | Raise e => (Raise e, g)
        | Ok feed_dict =>
            let g1 := if COLLECT_CALIBRATION_DATA g
                      then append_decoder_calibration_data feed_dict g else g in
            (decoder_infer self feed_dict, g1)
        end
    end.

(** *** Vocabulary of the statements about the forward functions *)

(** The feed dictionary that [decoder_forward] builds before it looks at
    the flag. *)
Definition decoder_feed (self : model) (x xa : tensor)
    (kv_cache : option cache) : res feed :=
  feed_dict ← make_feed_dict x xa;
  preprocess_kv_cache_inputs self feed_dict kv_cache.

(** The list of the value of a result, empty when it is an exception. *)
Definition returned {A} (r : res A) : list A :=
  match r with
  | Ok a => [a]
  | Raise _ => []
  end.
End Whisper.
End Whisper.

(** ** 244-named-entity-recognition: the cell that launches the demo *)

Module NER.
Section Launch.
(** [demo.launch(share=..., debug=True)] is gradio's: it acts on the world
    outside the notebook (it opens a server) and returns or raises. *)
Context {world : Type}.
Context (launch : bool -> world -> res unit * world).

(** [try: demo.launch(debug=True)
     except Exception: demo.launch(share=True, debug=True)] *)
Definition launch_cell (w : world) : res unit * world :=
  match launch false w with
  | (Ok tt, w1) => (Ok tt, w1)
  | (Raise e, w1) =>
      if is_Exception e then launch true w1 else (Raise e, w1)
  end.
End Launch.

(** A gradio for the examples: the world counts the launches, and a launch
    succeeds only when it is shared. *)
Definition launch_needs_share (share : bool) (w : nat) : res unit * nat :=
  if share then (Ok tt, S w) else (Raise (LibraryError "OSError"), S w).

(** A gradio that fails on every launch. *)
Definition launch_fails (share : bool) (w : nat) : res unit * nat :=
  (Raise (LibraryError (if share then "ConnectionError" else "OSError")), S w).
End NER.

(** ** Further vocabulary for the typo detector *)

(** A word of a sentence: a string without any delimiter character. *)
Fixpoint all_plain (s : string) : bool :=
  match s with
  | EmptyString => true
  | String c s' => negb (is_delimiter c) && all_plain s'
  end.

(** A string made of space characters only. *)
Fixpoint only_spaces (s : string) : bool :=
  match s with
  | EmptyString => true
  | String c s' => bool_decide (c = " "%char) && only_spaces s'
  end.

(** The positions of the flagged rows, counted from [k]. *)
Fixpoint flagged_positions_from {row : Type} (argmax : row -> Z) (k : nat)
    (rows : list row) : list nat :=
  match rows with
  | [] => []
  | i :: rest =>
      (if bool_decide (argmax i = 1) then [k] else [])
      ++ flagged_positions_from argmax (S k) rest
  end.

(** ** 244-named-entity-recognition: the launches that the cell makes *)

(** A gradio that also notes, launch after launch, whether it was asked to
    share. *)
Definition logged {world : Type} (launch : bool -> world -> res unit * world)
    (share : bool) (w : world * list bool) : res unit * (world * list bool) :=
  let '(r, w') := launch share (fst w) in
  (r, (w', snd w ++ [share])).

(** ** 227-whisper-nncf-quantize: a run of calls of the forward functions *)

Module WhisperCalls.
Import Whisper.
Section WhisperCalls.
Context {tensor feed cache model : Type}.
Context (encoder_infer : model -> tensor -> res tensor).
Context (make_feed_dict : tensor -> tensor -> res feed).
Context (preprocess_kv_cache_inputs : model -> feed -> option cache -> res feed).
Context (decoder_infer : model -> feed -> res tensor).

(** What [transcribe] does to the notebook: calls of [encoder.forward] and
    [decoder.forward], one after the other, until one of them raises. *)
Inductive forward_call : Type :=
  | EncoderCall (self : model) (mel : tensor)
  | DecoderCall (self : model) (x xa : tensor) (kv_cache : option cache).

Definition run_call (c : forward_call) : cell (tensor := tensor) (feed := feed) tensor :=
  match c with
  | EncoderCall self mel => encoder_forward encoder_infer self mel
  | DecoderCall self x xa kv_cache =>
      decoder_forward make_feed_dict preprocess_kv_cache_inputs decoder_infer
        self x xa kv_cache
  end.

Fixpoint run_calls (calls : list forward_call)
  : cell (tensor := tensor) (feed := feed) unit :=
  fun g =>
    match calls with
    | [] => (Ok tt, g)
    | c :: rest =>
        match run_call c g with
        | (Ok _, g1) => run_calls rest g1
        | (Raise e, g1) => (Raise e, g1)
        end
    end.

(** The outcome of a call, which does not depend on the globals. *)
Definition call_outcome (c : forward_call) : res tensor :=
  match c with
  | EncoderCall self mel => encoder_infer self mel
  | DecoderCall self x xa kv_cache =>
      feed_dict ← decoder_feed make_feed_dict preprocess_kv_cache_inputs
                    self x xa kv_cache;
      decoder_infer self feed_dict
  end.

(** The calls that are made: all of them up to the first that raises, that
    one included. *)
Fixpoint started (calls : list forward_call) : list forward_call :=
  match calls with
  | [] => []
  | c :: rest =>
      match call_outcome c with
      | Ok _ => c :: started rest
      | Raise _ => [c]
      end
  end.

(** The outcome of the run: the first exception, if any. *)
Fixpoint run_outcome (calls : list forward_call) : res unit :=
  match calls with
  | [] => Ok tt
  | c :: rest =>
      match call_outcome c with
      | Ok _ => run_outcome rest
      | Raise e => Raise e
      end
  end.

(** The inputs of the encoder calls, and the feed dictionaries of the decoder
    calls that could build one, in the order of the calls. *)
Definition encoder_samples (calls : list forward_call) : list tensor :=
  flat_map (fun c => match c with
                     | EncoderCall _ mel => [mel]
                     | DecoderCall _ _ _ _ => []
                     end) calls.

Definition decoder_samples (calls : list forward_call) : list feed :=
  flat_map (fun c => match c with
                     | EncoderCall _ _ => []
                     | DecoderCall self x xa kv_cache =>
                         returned (decoder_feed make_feed_dict
                                     preprocess_kv_cache_inputs self x xa kv_cache)
                     end) calls.

(** The globals with the samples of these calls appended. *)
Definition record_samples (calls : list forward_call)
    (g : globals (tensor := tensor) (feed := feed)) : globals :=
  {| COLLECT_CALIBRATION_DATA := COLLECT_CALIBRATION_DATA g;
     encoder_calibration_data := encoder_calibration_data g ++ encoder_samples calls;
     decoder_calibration_data := decoder_calibration_data g ++ decoder_samples calls |}.
End WhisperCalls.
End WhisperCalls.

(** ** 122-speech-recognition-quantization-wav2vec2 *)

(** [d[k]] on a dict of any values. *)
Definition dict_get {V} (d : gmap string V) (k : string) : res V :=
  match d !! k with
  | Some v => Ok v
  | None => Raise KeyError
  end.

Module Wav2Vec2.
Section Wav2Vec2.
(** A row of the dataset is a dict from column names to values.  Everything
    done to a value is a library call, which returns or raises. *)
Context {value ndarray port outputs logits ids transcription metric score : Type}.
Context {ov_model torch_model torch_output : Type}.

(** [v[key]] on the value of a column, the processor with its result's
    [input_values], and [np.array]. *)
Context (value_getitem : value -> string -> res value).
Context (processor : value -> value -> res value).
Context (np_array : value -> res ndarray).

(** The compiled OpenVINO model: [model.output(0)], [model(x)] and
    [outputs[output]]; then [np.argmax(logits, axis=-1)],
    [torch.from_numpy] and [processor.batch_decode]. *)
Context (model_output : ov_model -> res port).
Context (model_call : ov_model -> ndarray -> res outputs).
Context (outputs_getitem : outputs -> port -> res logits).
Context (np_argmax_last : logits -> res ids).
Context (torch_from_numpy : ids -> res ids).
Context (batch_decode : ids -> res transcription).

(** The PyTorch model: [torch.Tensor(x)], [model(x)], [.logits] and
    [torch.argmax(logits, dim=-1)]. *)
Context (torch_Tensor : value -> res ndarray).
Context (torch_call : torch_model -> ndarray -> res torch_output).
Context (output_logits : torch_output -> res logits).
Context (torch_argmax_last : logits -> res ids).

(** The metric of torchmetrics: [WordErrorRate()], [wer.update(preds, target)],
    which changes the metric, and [wer.compute()]; and [1 - result]. *)
Context (WordErrorRate : res metric).
Context (wer_update : metric -> transcription -> list value -> res metric).
Context (wer_compute : metric -> res score).
Context (one_minus : score -> score).

Definition map_to_input (batch : gmap string value) : res (gmap string value) :=
  audio ← dict_get batch "audio";
  array ← value_getitem audio "array";
  audio' ← dict_get batch "audio";
  sampling_rate ← value_getitem audio' "sampling_rate";
  input_values ← processor array sampling_rate;
  Ok (<["input_values" := input_values]> batch).

Definition transform_fn (data_item : gmap string value) : res ndarray :=
  input_values ← dict_get data_item "input_values";
  np_array input_values.

Definition validation_fn (model : ov_model) (dataset : list (gmap string value))
  : res score :=
  wer ← WordErrorRate;
  wer ← for_each (fun wer sample =>
           output ← model_output model;
           input_values ← dict_get sample "input_values";
           input ← np_array input_values;
           outs ← model_call model input;
           logits ← outputs_getitem outs output;
           predicted_ids ← np_argmax_last logits;
           predicted ← torch_from_numpy predicted_ids;
           transcription ← batch_decode predicted;
           text ← dict_get sample "text";
           wer_update wer transcription [text])
         dataset wer;
  result ← wer_compute wer;
  Ok (one_minus result).

Definition torch_infer (model : torch_model) (sample : gmap string value)
  : res transcription :=
  input_values ← dict_get sample "input_values";
  input ← torch_Tensor input_values;
  out ← torch_call model input;
  logits ← output_logits out;
  predicted_ids ← torch_argmax_last logits;
  batch_decode predicted_ids.

Definition ov_infer (model : ov_model) (sample : gmap string value)
  : res transcription :=
  output ← model_output model;
  input_values ← dict_get sample "input_values";
  input ← np_array input_values;
  outs ← model_call model input;
  logits ← outputs_getitem outs output;
  predicted_ids ← np_argmax_last logits;
  predicted ← torch_from_numpy predicted_ids;
  batch_decode predicted.

Definition compute_wer {M : Type} (dataset : list (gmap string value)) (model : M)
    (infer_fn : M -> gmap string value -> res transcription) : res score :=
  wer ← WordErrorRate;
  wer ← for_each (fun wer sample =>
           transcription ← infer_fn model sample;
           text ← dict_get sample "text";
           wer_update wer transcription [text])
         dataset wer;
  wer_compute wer.
End Wav2Vec2.
End Wav2Vec2.

(** * Properties *)

(** ** [token_to_words] *)

Example token_to_words_demo :
  token_to_words ["he"; "st"; "##gr"; "##ug"; "##gled"; "."]
  = <["he" := 0]> (<["st" := 1]> (<["##gr" := 1]> (<["##ug" := 1]>
      (<["##gled" := 1]> (<["." := 2]> ∅))))).
Proof. vm_compute. reflexivity. Qed.

Lemma count_words_cons x l : count_words (x :: l) = (words_of x + count_words l)%nat.
Proof. unfold count_words, words_of. simpl. destruct (opens_word x); reflexivity. Qed.

Lemma count_words_snoc l x : count_words (l ++ [x]) = (count_words l + words_of x)%nat.
Proof.
  unfold count_words, words_of. rewrite List.filter_app, length_app. simpl.
  destruct (opens_word x); reflexivity.
Qed.

Lemma count_words_nil : count_words [] = 0%nat.
Proof. reflexivity. Qed.

Lemma count_words_take_le i l : (count_words (take i l) <= count_words l)%nat.
Proof.
  revert i. induction l as [|x l IH]; intros [|i]; simpl; try lia.
  - rewrite count_words_nil. lia.
  - rewrite !count_words_cons. specialize (IH i). lia.
Qed.

(** Both branches of the loop body write the new value of [word_count]. *)
Lemma token_to_words_step_eq wc m token :
  token_to_words_step (wc, m) token
  = (wc + Z.of_nat (words_of token), <[token := wc + Z.of_nat (words_of token)]> m).
Proof.
  unfold token_to_words_step, words_of, opens_word.
  destruct (startswith token "##"); simpl; [|reflexivity].
  rewrite Z.add_0_r. reflexivity.
Qed.

Lemma token_to_words_loop_cons x l st :
  token_to_words_loop (x :: l) st = token_to_words_loop l (token_to_words_step st x).
Proof. reflexivity. Qed.

Lemma token_to_words_loop_app l l' st :
  token_to_words_loop (l ++ l') st = token_to_words_loop l' (token_to_words_loop l st).
Proof. apply fold_left_app. Qed.

(** The loop after its first [S i] iterations is the loop on the first [S i]
    tokens. *)
Lemma token_to_words_loop_take i l st :
  token_to_words_loop l st
  = token_to_words_loop (drop (S i) l) (token_to_words_loop (take (S i) l) st).
Proof. rewrite <- token_to_words_loop_app, take_drop. reflexivity. Qed.

Lemma token_to_words_loop_fst l wc m :
  fst (token_to_words_loop l (wc, m)) = wc + Z.of_nat (count_words l).
Proof.
  revert wc m. induction l as [|x l IH]; intros wc m.
  - simpl. rewrite count_words_nil. lia.
  - rewrite token_to_words_loop_cons, token_to_words_step_eq, IH, count_words_cons. lia.
Qed.

Lemma token_to_words_loop_lookup l wc m t :
  snd (token_to_words_loop l (wc, m)) !! t
  = match last_index t l with
    | Some i => Some (wc + Z.of_nat (count_words (take (S i) l)))
    | None => m !! t
    end.
Proof.
  revert wc m. induction l as [|x l IH]; intros wc m; [reflexivity|].
  rewrite token_to_words_loop_cons, token_to_words_step_eq, IH. simpl last_index.
  destruct (last_index t l) as [i|].
  - f_equal. change (take (S (S i)) (x :: l)) with (x :: take (S i) l).
    rewrite count_words_cons. lia.
  - destruct (decide (x = t)) as [->|Hne].
    + rewrite lookup_insert_eq. f_equal.
      change (take 1 (t :: l)) with [t]. rewrite count_words_cons, count_words_nil. lia.
    + rewrite lookup_insert_ne by assumption. reflexivity.
Qed.

Lemma last_index_spec t l i :
  last_index t l = Some i
  <-> l !! i = Some t /\ forall j, (i < j)%nat -> l !! j <> Some t.
Proof.
  revert i. induction l as [|x l IH]; intros i; simpl.
  - split; [discriminate|]. intros [H _]. rewrite lookup_nil in H. discriminate.
  - destruct (last_index t l) as [k|] eqn:Hk.
    + destruct (proj1 (IH k) eq_refl) as [Hk1 Hk2]. split.
      * intros [= <-]. split; [exact Hk1|].
        intros [|j] Hj; [lia|]. simpl. apply Hk2. lia.
      * intros [Hi Hlast]. destruct i as [|i].
        -- exfalso. apply (Hlast (S k)); [lia|exact Hk1].
        -- f_equal. f_equal. assert (Some k = Some i) as [= ->]; [|reflexivity].
           apply IH. split; [exact Hi|]. intros j Hj. apply (Hlast (S j)). lia.
    + assert (Hnone : forall j, l !! j <> Some t).
      { intros j Hj. revert j Hj. clear IH.
        induction l as [|y l IHl]; intros j Hj.
        - rewrite lookup_nil in Hj. discriminate.
        - simpl in Hk. destruct (last_index t l) as [?|] eqn:E; [discriminate|].
          destruct (decide (y = t)) as [->|Hne]; [discriminate|].
          destruct j as [|j]; simpl in Hj; [congruence|].
          eapply IHl; [reflexivity|exact Hj]. }
      destruct (decide (x = t)) as [->|Hne]; split.
      * intros [= <-]. split; [reflexivity|]. intros [|j] Hj; [lia|]. simpl. apply Hnone.
      * intros [Hi _]. destruct i as [|i]; [reflexivity|]. exfalso. exact (Hnone i Hi).
      * discriminate.
      * intros [Hi _]. destruct i as [|i]; simpl in Hi; [congruence|].
        exfalso. exact (Hnone i Hi).
Qed.

Lemma last_index_None t l : last_index t l = None <-> t ∉ l.
Proof.
  induction l as [|x l IH]; simpl.
  - split; [intros _; apply not_elem_of_nil|reflexivity].
  - rewrite not_elem_of_cons. destruct (last_index t l) as [k|].
    + split; [discriminate|]. intros [_ H]. apply IH in H. discriminate.
    + destruct (decide (x = t)) as [->|Hne].
      * split; [discriminate|]. intros [H _]. congruence.
      * split; [|reflexivity]. intros _. split; [congruence|]. apply IH. reflexivity.
Qed.

(** The word index is constant from a word-opening token up to the last
    '##' token attached to it, and is -1 before the first word. *)
Lemma word_index_at_word_start tokens i :
  word_index_at tokens i
  = match word_start_before tokens i with
    | Some j => word_index_at tokens j
    | None => -1
    end.
Proof.
  unfold word_index_at. revert i. induction tokens as [|x l IH]; intros i.
  - destruct i; reflexivity.
  - destruct i as [|i].
    + simpl word_start_before. destruct (opens_word x) eqn:Hx; [reflexivity|].
      change (take 1 (x :: l)) with [x].
      rewrite count_words_cons, count_words_nil. unfold words_of. rewrite Hx. reflexivity.
    + simpl word_start_before. change (take (S (S i)) (x :: l)) with (x :: take (S i) l).
      rewrite count_words_cons. specialize (IH i).
      destruct (word_start_before l i) as [j|].
      * change (take (S (S j)) (x :: l)) with (x :: take (S j) l).
        rewrite count_words_cons. lia.
      * destruct (opens_word x) eqn:Hx.
        -- change (take 1 (x :: l)) with [x].
           rewrite count_words_cons, count_words_nil. lia.
        -- unfold words_of. rewrite Hx. lia.
Qed.

(** [word_start_before] is the nearest word-opening token at or before [i]. *)
Lemma word_start_before_spec tokens i j :
  word_start_before tokens i = Some j ->
  (j <= i)%nat
  /\ (exists t, tokens !! j = Some t /\ startswith t "##" = false)
  /\ forall k t, (j < k <= i)%nat -> tokens !! k = Some t -> startswith t "##" = true.
Proof.
  revert i j. induction tokens as [|x l IH]; intros i j; [destruct i; discriminate|].
  assert (Hopen : forall y, opens_word y = true -> startswith y "##" = false).
  { intros y. unfold opens_word. destruct (startswith y "##"); [discriminate|reflexivity]. }
  assert (Hnone : forall l' i', word_start_before l' i' = None ->
            forall k t, (k <= i')%nat -> l' !! k = Some t -> startswith t "##" = true).
  { clear. induction l' as [|y l' IHl]; intros i' Hn k t Hk Ht.
    - rewrite lookup_nil in Ht. discriminate.
    - destruct i' as [|i']; simpl in Hn.
      + assert (k = 0%nat) as -> by lia. simpl in Ht. injection Ht as <-.
        unfold opens_word in Hn. destruct (startswith y "##"); [reflexivity|discriminate].
      + destruct (word_start_before l' i') eqn:E; [discriminate|].
        destruct k as [|k]; simpl in Ht.
        * injection Ht as <-. unfold opens_word in Hn.
          destruct (startswith y "##"); [reflexivity|discriminate].
        * eapply (IHl i'); [exact E| |exact Ht]. lia. }
  destruct i as [|i]; simpl.
  - destruct (opens_word x) eqn:Hx; [|discriminate]. intros [= <-].
    split; [lia|]. split; [exists x; split; [reflexivity|auto]|]. intros k t Hk. lia.
  - destruct (word_start_before l i) as [j'|] eqn:E.
    + intros [= <-]. destruct (IH i j' E) as (Hle & Hj & Hafter).
      split; [lia|]. split; [exact Hj|].
      intros [|k] t Hk Ht; [lia|]. simpl in Ht. apply (Hafter k t); [lia|exact Ht].
    + destruct (opens_word x) eqn:Hx; [|discriminate]. intros [= <-].
      split; [lia|]. split; [exists x; split; [reflexivity|auto]|].
      intros [|k] t Hk Ht; [lia|]. simpl in Ht. apply (Hnone l i E k t); [lia|exact Ht].
Qed.

(** C1, as stated, fails: the dictionary has one entry per token string, so
    of two occurrences of the same token only the last one is recorded.  In
    [the; cat; the] the first token belongs to word 0, and the dictionary
    maps it to 2. *)
Lemma token_to_words_repeated_token_counterexample :
  ["the"; "cat"; "the"] !! 0%nat = Some "the"
  /\ word_index_at ["the"; "cat"; "the"] 0 = 0
  /\ token_to_words ["the"; "cat"; "the"] !! "the" = Some 2
  /\ token_to_words ["the"; "cat"; "the"] !! "the"
     <> Some (word_index_at ["the"; "cat"; "the"] 0).
Proof. repeat split. discriminate. Qed.

(** C1, amended: for every list of tokens, the dictionary returned by
    [token_to_words] has exactly the token strings of the list as keys
    (a string that is no token has no entry) and maps each of them to the
    word index of its last occurrence in the list; the word index of a
    position is that of the nearest token at or before it that does not
    start with '##', and -1 when there is none. *)
Theorem token_to_words_last_occurrence (tokens : list string) (t : string) :
  token_to_words tokens !! t = word_index_at tokens <$> last_index t tokens
  /\ forall i : nat,
       word_index_at tokens i
       = match word_start_before tokens i with
         | Some j => word_index_at tokens j
         | None => -1
         end.
Proof.
  split.
  - unfold token_to_words. rewrite token_to_words_loop_lookup.
    destruct (last_index t tokens) as [i|]; simpl.
    + unfold word_index_at. f_equal. lia.
    + apply lookup_empty.
  - intros i. apply word_index_at_word_start.
Qed.

(** C8: [token_to_words] assigns to the tokens that do not start with '##',
    in list order, the word indices 0, 1, 2, ...: when the loop has handled
    the token at position [i], which is what [token_to_words] returns on the
    first [i + 1] tokens, the value assigned to that token is the number of
    tokens not starting with '##' at or before that position, minus one; it
    is not negative.  The run on the whole list goes on from there: from
    that dictionary, with [word_count] at the value just assigned. *)
Theorem token_to_words_assigns_consecutive (tokens : list string) (i : nat)
    (t : string) :
  tokens !! i = Some t ->
  startswith t "##" = false ->
  let assigned := Z.of_nat (count_words (take (S i) tokens)) - 1 in
  token_to_words (take (S i) tokens) !! t = Some assigned
  /\ 0 <= assigned
  /\ token_to_words tokens
     = snd (token_to_words_loop (drop (S i) tokens)
              (assigned, token_to_words (take (S i) tokens))).
Proof.
  intros Hi Ht assigned. subst assigned.
  assert (Hstate : token_to_words_loop (take (S i) tokens) (-1, ∅)
                   = (Z.of_nat (count_words (take (S i) tokens)) - 1,
                      token_to_words (take (S i) tokens))).
  { unfold token_to_words.
    pose proof (token_to_words_loop_fst (take (S i) tokens) (-1) ∅) as Hwc.
    destruct (token_to_words_loop (take (S i) tokens) (-1, ∅)) as [wc m].
    simpl in *. f_equal. lia. }
  split; [|split].
  - unfold token_to_words. rewrite (take_S_r _ _ _ Hi), token_to_words_loop_app.
    destruct (token_to_words_loop (take i tokens) (-1, ∅)) as [wc m] eqn:E.
    change (token_to_words_loop [t] (wc, m)) with (token_to_words_step (wc, m) t).
    rewrite token_to_words_step_eq. simpl snd. rewrite lookup_insert_eq. f_equal.
    pose proof (token_to_words_loop_fst (take i tokens) (-1) ∅) as Hwc.
    rewrite E in Hwc. simpl in Hwc.
    rewrite count_words_snoc. lia.
  - rewrite (take_S_r _ _ _ Hi), count_words_snoc.
    unfold words_of, opens_word. rewrite Ht. simpl. lia.
  - rewrite <- Hstate. unfold token_to_words at 1.
    rewrite (token_to_words_loop_take i tokens). reflexivity.
Qed.

Lemma token_to_words_assigns_consecutive_witness :
  let tokens := ["he"; "st"; "##gr"; "##ug"; "."] in
  let assigned := Z.of_nat (count_words (take 5 tokens)) - 1 in
  token_to_words (take 5 tokens) !! "." = Some assigned
  /\ 0 <= assigned
  /\ token_to_words tokens
     = snd (token_to_words_loop (drop 5 tokens)
              (assigned, token_to_words (take 5 tokens))).
Proof.
  exact (token_to_words_assigns_consecutive
           ["he"; "st"; "##gr"; "##ug"; "."] 4 "." eq_refl eq_refl).
Defined.

(** ** [get_typo_indexes] *)

Lemma res_bind_Ok {A B} (a : A) (k : A -> res B) : (Ok a ≫= k) = k a.
Proof. reflexivity. Qed.

Lemma res_bind_Raise {A B} (e : error) (k : A -> res B) : (Raise e ≫= k) = Raise e.
Proof. reflexivity. Qed.

Lemma for_each_cons {A S} (body : S -> A -> res S) x l s :
  for_each body (x :: l) s = (body s x ≫= for_each body l).
Proof. reflexivity. Qed.

Lemma list_getitem_Ok {A} (l : list A) (i : Z) (x : A) :
  0 <= i -> l !! Z.to_nat i = Some x -> list_getitem l i = Ok x.
Proof.
  intros Hi Hx. unfold list_getitem.
  rewrite (bool_decide_eq_false_2 (i < 0)) by lia.
  rewrite (bool_decide_eq_false_2 (i < 0)) by lia.
  rewrite Hx. reflexivity.
Qed.

Lemma list_getitem_nonneg_inv {A} (l : list A) (i : Z) (x : A) :
  0 <= i -> list_getitem l i = Ok x -> l !! Z.to_nat i = Some x.
Proof.
  intros Hi. unfold list_getitem.
  rewrite (bool_decide_eq_false_2 (i < 0)) by lia.
  rewrite (bool_decide_eq_false_2 (i < 0)) by lia.
  destruct (l !! Z.to_nat i); [intros [= ->]; reflexivity|discriminate].
Qed.

Lemma list_getitem_elem_of {A} (l : list A) (i : Z) (x : A) :
  list_getitem l i = Ok x -> x ∈ l.
Proof.
  unfold list_getitem. cbv zeta.
  destruct (bool_decide (_ < 0)); [discriminate|].
  destruct (l !! _) as [y|] eqn:E; [|discriminate].
  intros [= <-]. eapply list_elem_of_lookup_2. exact E.
Qed.

Lemma dict_getitem_Ok d k v : dict_getitem d k = Ok v <-> d !! k = Some v.
Proof.
  unfold dict_getitem. destruct (d !! k); split; try discriminate; congruence.
Qed.

Lemma length_slice_1_m1 {A} (l : list A) :
  length (slice_1_m1 l) = (length l - 2)%nat.
Proof. unfold slice_1_m1. rewrite length_drop, length_take. lia. Qed.

Lemma first_occurrences_sub seen l w : w ∈ first_occurrences seen l -> w ∈ l.
Proof.
  revert seen. induction l as [|x l IH]; intros seen; simpl; [auto|].
  destruct (bool_decide (x ∈ seen)).
  - intros H. right. eapply IH, H.
  - intros [->|H]%elem_of_cons; [left|right; eapply IH, H].
Qed.

Lemma first_occurrences_NoDup seen l :
  NoDup seen -> NoDup (seen ++ first_occurrences seen l).
Proof.
  revert seen. induction l as [|x l IH]; intros seen Hseen; simpl.
  - rewrite app_nil_r. exact Hseen.
  - destruct (bool_decide (x ∈ seen)) eqn:Hx.
    + apply IH, Hseen.
    + apply bool_decide_eq_false in Hx.
      change (x :: first_occurrences (seen ++ [x]) l)
        with ([x] ++ first_occurrences (seen ++ [x]) l).
      rewrite app_assoc. apply IH.
      apply NoDup_app. split; [exact Hseen|]. split.
      * intros y Hy [->|Hnil]%elem_of_cons; [contradiction|].
        apply elem_of_nil in Hnil. exact Hnil.
      * apply NoDup_singleton.
Qed.

Section GetTypoIndexesProperties.
Context {row : Type} (argmax : row -> Z).

(** The body of the loop, with its two evaluations of
    [map_to_words[tokens[c]]] merged. *)
Lemma get_typo_indexes_body_eq m tokens ws c i :
  get_typo_indexes_body argmax m tokens (ws, c) i
  = if bool_decide (argmax i = 1) then
      token ← list_getitem tokens c;
      w ← dict_getitem m token;
      Ok (if bool_decide (w ∈ ws) then ws else ws ++ [w], c + 1)
    else Ok (ws, c + 1).
Proof.
  unfold get_typo_indexes_body.
  destruct (bool_decide (argmax i = 1)); [|reflexivity].
  destruct (list_getitem tokens c) as [t|e]; [|reflexivity]. simpl.
  destruct (dict_getitem m t) as [w|e]; [|reflexivity]. simpl.
  destruct (decide (w ∈ ws)) as [Hin|Hin].
  - rewrite (bool_decide_eq_false_2 (w ∉ ws)) by tauto.
    rewrite (bool_decide_eq_true_2 (w ∈ ws)) by assumption. reflexivity.
  - rewrite (bool_decide_eq_true_2 (w ∉ ws)) by assumption.
    rewrite (bool_decide_eq_false_2 (w ∈ ws)) by assumption. reflexivity.
Qed.

(** The loop does not fail while [c] stays inside [tokens] and every token
    has an entry. *)
Lemma get_typo_indexes_loop_total m tokens rows ws c :
  (forall t, t ∈ tokens -> is_Some (m !! t)) ->
  0 <= c ->
  c + Z.of_nat (length rows) <= Z.of_nat (length tokens) ->
  exists st, for_each (get_typo_indexes_body argmax m tokens) rows (ws, c) = Ok st.
Proof.
  intros Hm. revert ws c. induction rows as [|i rows IH]; intros ws c Hc Hlen.
  - eexists. reflexivity.
  - simpl in Hlen. rewrite for_each_cons, get_typo_indexes_body_eq.
    destruct (bool_decide (argmax i = 1)).
    + destruct (lookup_lt_is_Some_2 tokens (Z.to_nat c)) as [t Ht]; [lia|].
      rewrite (list_getitem_Ok _ _ _ Hc Ht), res_bind_Ok.
      destruct (Hm t) as [w Hw]; [eapply list_elem_of_lookup_2, Ht|].
      rewrite (proj2 (dict_getitem_Ok m t w) Hw), !res_bind_Ok.
      apply IH; lia.
    + rewrite res_bind_Ok. apply IH; lia.
Qed.

Lemma flagged_words_nil_tokens m rows : flagged_words argmax m [] rows = [].
Proof. unfold flagged_words. destruct rows; reflexivity. Qed.

Lemma flagged_words_values m tokens rows w :
  w ∈ flagged_words argmax m tokens rows -> exists t, t ∈ tokens /\ m !! t = Some w.
Proof.
  unfold flagged_words. intros Hw. apply list_elem_of_omap in Hw.
  destruct Hw as ([i t] & Hit & Hw).
  destruct (bool_decide (argmax i = 1)); [|discriminate].
  exists t. split; [|exact Hw].
  apply elem_of_zip_r in Hit. exact Hit.
Qed.

(** What the loop has collected when it ends without failure. *)
Lemma get_typo_indexes_loop_result m tokens rows ws c ws' c' :
  0 <= c ->
  for_each (get_typo_indexes_body argmax m tokens) rows (ws, c) = Ok (ws', c') ->
  ws' = ws ++ first_occurrences ws
                (flagged_words argmax m (drop (Z.to_nat c) tokens) rows).
Proof.
  revert ws c. induction rows as [|i rows IH]; intros ws c Hc.
  - simpl. intros [= <- <-]. unfold flagged_words. simpl. rewrite app_nil_r. reflexivity.
  - rewrite for_each_cons, get_typo_indexes_body_eq.
    assert (Hnext : drop (Z.to_nat (c + 1)) tokens = drop 1 (drop (Z.to_nat c) tokens)).
    { rewrite drop_drop. f_equal. lia. }
    destruct (bool_decide (argmax i = 1)) eqn:Hflag.
    + destruct (list_getitem tokens c) as [t|e] eqn:Ht; [|discriminate].
      rewrite res_bind_Ok.
      destruct (dict_getitem m t) as [w|e] eqn:Hw; [|discriminate].
      rewrite !res_bind_Ok.
      apply list_getitem_nonneg_inv in Ht; [|exact Hc].
      apply dict_getitem_Ok in Hw.
      intros Hloop. apply IH in Hloop; [|lia]. rewrite Hloop, Hnext.
      rewrite (drop_S _ _ _ Ht). unfold flagged_words. simpl.
      rewrite Hflag, Hw. simpl. rewrite drop_0.
      destruct (bool_decide (w ∈ ws)); [reflexivity|].
      rewrite <- app_assoc. reflexivity.
    + rewrite res_bind_Ok. intros Hloop. apply IH in Hloop; [|lia].
      rewrite Hloop, Hnext.
      destruct (drop (Z.to_nat c) tokens) as [|t rest] eqn:Hd.
      * simpl. rewrite !flagged_words_nil_tokens. reflexivity.
      * unfold flagged_words. simpl. rewrite Hflag, drop_0. reflexivity.
Qed.

Lemma get_typo_indexes_inv result m tokens ws :
  get_typo_indexes argmax result m tokens = Ok ws ->
  exists first,
    result !! 0%nat = Some first
    /\ ws = first_occurrences [] (flagged_words argmax m tokens (slice_1_m1 first)).
Proof.
  unfold get_typo_indexes.
  destruct (list_getitem result 0) as [first|e] eqn:Hfirst; [|discriminate].
  rewrite res_bind_Ok.
  apply list_getitem_nonneg_inv in Hfirst; [|lia].
  destruct (for_each _ _ _) as [[ws' c']|e] eqn:Hloop; [|discriminate].
  rewrite res_bind_Ok. simpl fst.
  intros [= <-]. exists first. split; [exact Hfirst|].
  apply get_typo_indexes_loop_result in Hloop; [|lia]. exact Hloop.
Qed.
End GetTypoIndexesProperties.

Lemma token_to_words_value_bounds tokens t v :
  token_to_words tokens !! t = Some v ->
  -1 <= v < Z.of_nat (count_words tokens)
  /\ (forall t0, head tokens = Some t0 -> startswith t0 "##" = false -> 0 <= v).
Proof.
  unfold token_to_words. rewrite token_to_words_loop_lookup.
  destruct (last_index t tokens) as [i|]; [|rewrite lookup_empty; discriminate].
  intros [= <-]. pose proof (count_words_take_le (S i) tokens) as Hle.
  split; [lia|]. intros t0 Hhead Ht0.
  destruct tokens as [|x rest]; [discriminate|]. injection Hhead as ->.
  change (take (S i) (t0 :: rest)) with (t0 :: take i rest).
  rewrite count_words_cons. unfold words_of, opens_word. rewrite Ht0.
  change (if negb false then 1%nat else 0%nat) with 1%nat. lia.
Qed.

Section GetTypoIndexesClaims.
Context {row : Type} (argmax : row -> Z).

(** C2, amended: for every list of tokens whose first token does not start
    with '##', every value stored in the mapping returned by
    [token_to_words], and every index returned by [get_typo_indexes] run
    with that mapping, is an integer [v] with
    [0 <= v < number of tokens that do not start with '##']. *)
Theorem word_indexes_in_range (result : list (list row))
    (tokens : list string) (t0 : string) :
  head tokens = Some t0 ->
  startswith t0 "##" = false ->
  map_Forall (fun _ v => 0 <= v < Z.of_nat (count_words tokens))
             (token_to_words tokens)
  /\ forall ws,
       get_typo_indexes argmax result (token_to_words tokens) tokens = Ok ws ->
       Forall (fun w => 0 <= w < Z.of_nat (count_words tokens)) ws.
Proof.
  intros Hhead Ht0.
  assert (Hvalues : forall t v, token_to_words tokens !! t = Some v ->
                                0 <= v < Z.of_nat (count_words tokens)).
  { intros t v Hv. destruct (token_to_words_value_bounds tokens t v Hv) as [Hb H0].
    specialize (H0 t0 Hhead Ht0). lia. }
  split; [exact Hvalues|].
  intros ws Hws. apply get_typo_indexes_inv in Hws.
  destruct Hws as (first & _ & ->).
  apply Forall_forall. intros w Hw.
  apply first_occurrences_sub, flagged_words_values in Hw.
  destruct Hw as (t & _ & Ht). exact (Hvalues t w Ht).
Qed.

(** C6: when the inference result has a first row of as many positions as
    there are tokens, plus two, and the map has an entry for every token,
    [get_typo_indexes] returns a list: no subscript fails. *)
Theorem get_typo_indexes_total (result : list (list row)) (first : list row)
    (map_to_words : gmap string Z) (tokens : list string) :
  result !! 0%nat = Some first ->
  length first = (length tokens + 2)%nat ->
  (forall t, t ∈ tokens -> is_Some (map_to_words !! t)) ->
  exists wrong_words,
    get_typo_indexes argmax result map_to_words tokens = Ok wrong_words.
Proof.
  intros Hfirst Hlen Hmap. unfold get_typo_indexes.
  rewrite (list_getitem_Ok result 0 first) by (try lia; exact Hfirst).
  rewrite res_bind_Ok.
  destruct (get_typo_indexes_loop_total argmax map_to_words tokens
              (slice_1_m1 first) [] 0 Hmap) as [st Hst].
  - lia.
  - rewrite length_slice_1_m1. lia.
  - rewrite Hst, res_bind_Ok. eexists. reflexivity.
Qed.

(** C9: a list returned by [get_typo_indexes] has no duplicate: it holds
    the word indices of the flagged positions, each once, in the order of
    its first detection. *)
Theorem get_typo_indexes_no_duplicates (result : list (list row))
    (map_to_words : gmap string Z) (tokens : list string) (wrong_words : list Z) :
  get_typo_indexes argmax result map_to_words tokens = Ok wrong_words ->
  NoDup wrong_words
  /\ exists first,
       result !! 0%nat = Some first
       /\ wrong_words
          = first_occurrences []
              (flagged_words argmax map_to_words tokens (slice_1_m1 first)).
Proof.
  intros Hws. apply get_typo_indexes_inv in Hws.
  destruct Hws as (first & Hfirst & ->).
  split.
  - apply (first_occurrences_NoDup [] _ (NoDup_nil_2)).
  - exists first. split; [exact Hfirst|reflexivity].
Qed.
End GetTypoIndexesClaims.

Example get_typo_indexes_demo :
  get_typo_indexes np_argmax demo_result (token_to_words demo_tokens) demo_tokens
  = Ok [1].
Proof. vm_compute. reflexivity. Qed.

(** C2, as stated, fails on a list whose first token starts with '##': for
    the one token '##a' the value stored is -1, which [get_typo_indexes]
    returns, and the list has no word at all. *)
Lemma word_indexes_leading_continuation_counterexample :
  token_to_words ["##a"] !! "##a" = Some (-1)
  /\ get_typo_indexes np_argmax [[(1, [0]); (0, [1]); (1, [0])]]
       (token_to_words ["##a"]) ["##a"] = Ok [-1]
  /\ ~ (0 <= -1 < Z.of_nat (count_words ["##a"])).
Proof. split; [|split]; [vm_compute; reflexivity..|simpl; lia]. Qed.

Lemma word_indexes_in_range_witness :
  map_Forall (fun _ v => 0 <= v < Z.of_nat (count_words demo_tokens))
             (token_to_words demo_tokens)
  /\ forall ws,
       get_typo_indexes np_argmax demo_result (token_to_words demo_tokens)
         demo_tokens = Ok ws ->
       Forall (fun w => 0 <= w < Z.of_nat (count_words demo_tokens)) ws.
Proof.
  apply (word_indexes_in_range np_argmax demo_result demo_tokens "he");
    reflexivity.
Defined.

Lemma get_typo_indexes_total_witness :
  exists wrong_words,
    get_typo_indexes np_argmax demo_result (token_to_words demo_tokens) demo_tokens
    = Ok wrong_words.
Proof.
  apply (get_typo_indexes_total np_argmax demo_result
           [(1, [0]); (1, [0]); (0, [1]); (0, [1]); (0, [1]); (1, [0]); (1, [0])]
           (token_to_words demo_tokens) demo_tokens).
  - reflexivity.
  - reflexivity.
  - intros t Ht. unfold demo_tokens in Ht.
    repeat (apply elem_of_cons in Ht; destruct Ht as [->|Ht];
            [vm_compute; eexists; reflexivity|]).
    apply elem_of_nil in Ht. destruct Ht.
Defined.

Lemma get_typo_indexes_no_duplicates_witness :
  NoDup [1]
  /\ exists first,
       demo_result !! 0%nat = Some first
       /\ [1] = first_occurrences []
                  (flagged_words np_argmax (token_to_words demo_tokens) demo_tokens
                     (slice_1_m1 first)).
Proof.
  apply (get_typo_indexes_no_duplicates np_argmax demo_result
           (token_to_words demo_tokens) demo_tokens [1]).
  vm_compute. reflexivity.
Defined.

(** ** [sentence_split] *)

Example sentence_split_demo :
  sentence_split "I wnet to the park, but it's ok."
  = ["I"; "wnet"; "to"; "the"; "park"; ","; "but"; "it"; "'"; "s"; "ok"; "."].
Proof. reflexivity. Qed.

Example re_split_adjacent_delimiters : re_split "a, b" = ["a"; ","; ""; " "; "b"].
Proof. reflexivity. Qed.

Lemma kept_true x : kept x = true <-> x <> " " /\ x <> "".
Proof.
  unfold kept. rewrite andb_true_iff, !negb_true_iff, !String.eqb_neq. reflexivity.
Qed.

Lemma join_kept_cons p rest :
  starts_plain p ->
  join (List.filter kept (p :: rest)) = p +:+ join (List.filter kept rest).
Proof.
  intros Hp. simpl List.filter. destruct (kept p) eqn:Hk; [reflexivity|].
  destruct p as [|c p]; [reflexivity|]. exfalso.
  assert (Hne : String c p <> " " /\ String c p <> "").
  { split; [|discriminate]. intros [= -> ->]. simpl in Hp. discriminate. }
  apply kept_true in Hne. congruence.
Qed.

Lemma re_split_join s :
  exists p rest,
    re_split s = p :: rest
    /\ starts_plain p
    /\ join (List.filter kept (p :: rest)) = remove_spaces s.
Proof.
  induction s as [|c s IH].
  - exists "", []. repeat split.
  - destruct IH as (p & rest & Hsplit & Hp & Hjoin). simpl re_split.
    destruct (is_delimiter c) eqn:Hc.
    + exists "", (String c "" :: p :: rest). rewrite Hsplit.
      split; [reflexivity|]. split; [exact I|].
      rewrite join_kept_cons by exact I. simpl remove_spaces.
      destruct (decide (c = " "%char)) as [->|Hne].
      * rewrite bool_decide_eq_true_2 by reflexivity. exact Hjoin.
      * rewrite bool_decide_eq_false_2 by exact Hne.
        change (List.filter kept (String c "" :: p :: rest))
          with (if kept (String c "") then String c "" :: List.filter kept (p :: rest)
                else List.filter kept (p :: rest)).
        assert (Hk : kept (String c "") = true).
        { apply kept_true. split; [|discriminate]. intros [= ->]. congruence. }
        rewrite Hk. simpl. simpl in Hjoin. rewrite Hjoin. reflexivity.
    + rewrite Hsplit. exists (String c p), rest.
      split; [reflexivity|]. split; [exact Hc|].
      rewrite join_kept_cons by exact Hc.
      rewrite join_kept_cons in Hjoin by exact Hp.
      simpl remove_spaces. rewrite <- Hjoin.
      rewrite bool_decide_eq_false_2; [reflexivity|].
      intros ->. simpl in Hc. discriminate.
Qed.

(** C7: for every string, the list returned by [sentence_split] contains
    neither the empty string nor the string of one space, and its elements,
    concatenated in order, are the sentence without its space characters. *)
Theorem sentence_split_keeps_all_but_spaces (sentence : string) :
  ("" ∉ sentence_split sentence)
  /\ (" " ∉ sentence_split sentence)
  /\ join (sentence_split sentence) = remove_spaces sentence.
Proof.
  unfold sentence_split. fold kept.
  split; [|split].
  - intros H. apply list_elem_of_In, filter_In in H. destruct H as [_ H].
    apply kept_true in H. destruct H as [_ H]. congruence.
  - intros H. apply list_elem_of_In, filter_In in H. destruct H as [_ H].
    apply kept_true in H. destruct H as [H _]. congruence.
  - destruct (re_split_join sentence) as (p & rest & -> & _ & Hjoin). exact Hjoin.
Qed.

(** ** [show_typos] *)

Example show_typos_detected_demo :
  show_typos_detected "He had also stgruggled with addiction ." [3]
  = Ok "He had also <i>stgruggled</i> with addiction .".
Proof. reflexivity. Qed.

(** The whole of [show_typos], with a tokenizer and a model that answer as
    they would for this sentence. *)
Example show_typos_demo :
  show_typos np_argmax (fun _ => demo_tokens) (fun _ => demo_result) "he stgrug."
  = Ok "he <i>stgrug</i>.".
Proof. vm_compute. reflexivity. Qed.

(** The Optimum version, on the span that the pipeline reports. *)
Example show_typos_spans_demo :
  show_typos_spans "He had also stgruggled with addiction ." [(12, 22)]
  = "He had also <i>stgruggled</i> with addiction .".
Proof. reflexivity. Qed.

Example show_typos_spans_other_occurrence :
  show_typos_spans "a cat" [(0, 1)] = "<i>a</i> c<i>a</i>t".
Proof. reflexivity. Qed.

Example str_replace_does_not_overlap : str_replace "aaa" "aa" "X" = "Xa".
Proof. reflexivity. Qed.

Example str_replace_empty : str_replace "abc" "" "-" = "-a-b-c-".
Proof. reflexivity. Qed.

Lemma string_app_empty_l (s : string) : "" +:+ s = s.
Proof. reflexivity. Qed.

Lemma string_app_cons (c : ascii) (s s' : string) :
  String c s +:+ s' = String c (s +:+ s').
Proof. reflexivity. Qed.

Lemma string_app_assoc (a b c : string) : (a +:+ b) +:+ c = a +:+ (b +:+ c).
Proof.
  induction a as [|x a IH]; [reflexivity|].
  rewrite !string_app_cons, IH. reflexivity.
Qed.

Lemma occurrences_from_empty t n :
  occurrences_from t n "" = if String.prefix t "" then [n] else [].
Proof. simpl. apply app_nil_r. Qed.

Lemma occurrences_from_cons t n c s :
  occurrences_from t n (String c s)
  = (if String.prefix t (String c s) then [n] else []) ++ occurrences_from t (S n) s.
Proof. reflexivity. Qed.

Lemma replace_from_cons old new c s :
  replace_from old new 0 (String c s)
  = if String.prefix old (String c s)
    then new +:+ replace_from old new (String.length old - 1) s
    else String c (replace_from old new 0 s).
Proof. reflexivity. Qed.

Lemma occurrences_from_nil_shift t n m s :
  occurrences_from t n s = [] -> occurrences_from t m s = [].
Proof.
  revert n m. induction s as [|c s IH]; intros n m.
  - rewrite !occurrences_from_empty.
    destruct (String.prefix t ""); [discriminate|reflexivity].
  - rewrite !occurrences_from_cons.
    destruct (String.prefix t (String c s)); [discriminate|]. apply IH.
Qed.

Lemma occurrences_from_nil_drop t n m j s :
  occurrences_from t n s = [] -> occurrences_from t m (drop_chars j s) = [].
Proof.
  revert n m s. induction j as [|j IH]; intros n m s H.
  - destruct s; simpl drop_chars; eapply occurrences_from_nil_shift, H.
  - destruct s as [|c s]; simpl drop_chars.
    + eapply occurrences_from_nil_shift, H.
    + rewrite occurrences_from_cons in H.
      apply app_eq_nil in H. destruct H as [_ H]. eapply IH, H.
Qed.

Lemma occurrences_from_ge t n s x : x ∈ occurrences_from t n s -> (n <= x)%nat.
Proof.
  revert n. induction s as [|c s IH]; intros n.
  - rewrite occurrences_from_empty. destruct (String.prefix t "").
    + intros ->%list_elem_of_singleton. lia.
    + intros []%elem_of_nil.
  - rewrite occurrences_from_cons. intros [H|H]%elem_of_app.
    + destruct (String.prefix t (String c s)).
      * apply list_elem_of_singleton in H. lia.
      * apply elem_of_nil in H. destruct H.
    + apply IH in H. lia.
Qed.

(** Where [old] does not occur, nothing is replaced. *)
Lemma replace_from_no_occurrence old new n s :
  occurrences_from old n s = [] -> replace_from old new 0 s = s.
Proof.
  revert n. induction s as [|c s IH]; intros n; [reflexivity|].
  rewrite occurrences_from_cons, replace_from_cons.
  destruct (String.prefix old (String c s)); [discriminate|].
  intros H. f_equal. eapply IH, H.
Qed.

(** Passing [k] characters is starting again after them. *)
Lemma replace_from_skip old new k s :
  replace_from old new k s = replace_from old new 0 (drop_chars k s).
Proof.
  revert k. induction s as [|c s IH]; intros [|k]; try reflexivity.
  change (replace_from old new (S k) (String c s)) with (replace_from old new k s).
  simpl drop_chars. apply IH.
Qed.

(** The only occurrence of a non-empty [old] is replaced and the rest is
    kept. *)
Lemma replace_from_single_occurrence old new n k s :
  old <> "" ->
  occurrences_from old n s = [(n + k)%nat] ->
  replace_from old new 0 s
  = take_chars k s +:+ new +:+ drop_chars (k + String.length old) s.
Proof.
  intros Hold. revert n k. induction s as [|c s IH]; intros n k.
  - rewrite occurrences_from_empty.
    destruct old as [|a old]; [congruence|]. discriminate.
  - rewrite occurrences_from_cons, replace_from_cons.
    destruct (String.prefix old (String c s)) eqn:Hpre.
    + intros [= Hk Hrest]. assert (k = 0%nat) as -> by lia.
      destruct old as [|a old]; [congruence|].
      change (take_chars 0 (String c s)) with "".
      change (drop_chars (0 + String.length (String a old)) (String c s))
        with (drop_chars (String.length old) s).
      change (String.length (String a old) - 1)%nat with (String.length old - 0)%nat.
      rewrite Nat.sub_0_r, replace_from_skip. rewrite string_app_empty_l. f_equal.
      apply (replace_from_no_occurrence _ _ 0%nat).
      eapply occurrences_from_nil_drop, Hrest.
    + intros Hocc. simpl app in Hocc.
      assert (S n <= n + k)%nat as Hle.
      { apply (occurrences_from_ge old (S n) s). rewrite Hocc. left. }
      destruct k as [|k]; [lia|].
      replace (n + S k)%nat with (S n + k)%nat in Hocc by lia.
      change (take_chars (S k) (String c s)) with (String c (take_chars k s)).
      change (drop_chars (S k + String.length old) (String c s))
        with (drop_chars (k + String.length old) s).
      rewrite string_app_cons. f_equal. apply (IH (S n) k Hocc).
Qed.

Lemma wrap_once_replace s t r :
  wrap_once s t = Some r -> str_replace s t (tag t) = r.
Proof.
  unfold wrap_once, str_replace, occurrences.
  destruct t as [|a t]; [discriminate|].
  destruct (occurrences_from (String a t) 0 s) as [|k [|? ?]] eqn:Hocc;
    [discriminate| |discriminate].
  intros [= <-].
  assert (Hne : String a t <> "") by discriminate.
  exact (replace_from_single_occurrence (String a t) (tag (String a t)) 0 k s Hne Hocc).
Qed.

Lemma wrap_each_once_mark_typos s typos r :
  wrap_each_once s typos = Some r -> mark_typos s typos = r.
Proof.
  revert s. induction typos as [|t typos IH]; intros s; simpl.
  - intros [= <-]. reflexivity.
  - destruct (wrap_once s t) as [s'|] eqn:Hw; [|discriminate]. simpl.
    apply wrap_once_replace in Hw. unfold mark_typos. simpl. rewrite Hw. apply IH.
Qed.

(** What [wrap_once] returns is [s] with one occurrence of [t] wrapped. *)
Lemma take_drop_chars k s : take_chars k s +:+ drop_chars k s = s.
Proof.
  revert s. induction k as [|k IH]; intros [|c s]; try reflexivity.
  change (String c (take_chars k s +:+ drop_chars k s) = String c s).
  rewrite IH. reflexivity.
Qed.

Lemma drop_chars_add j k s : drop_chars j (drop_chars k s) = drop_chars (k + j) s.
Proof.
  revert s. induction k as [|k IH]; intros s.
  - destruct s; reflexivity.
  - destruct s as [|c s]; [destruct j; reflexivity|]. apply IH.
Qed.

Lemma prefix_drop_chars t s :
  String.prefix t s = true -> s = t +:+ drop_chars (String.length t) s.
Proof.
  revert s. induction t as [|a t IH]; intros s; [destruct s; reflexivity|].
  destruct s as [|c s]; [discriminate|]. simpl String.prefix.
  destruct (ascii_dec a c) as [->|]; [|discriminate].
  intros H. rewrite string_app_cons. f_equal. apply IH, H.
Qed.

Lemma occurrences_from_prefix t n k s :
  (n + k)%nat ∈ occurrences_from t n s -> String.prefix t (drop_chars k s) = true.
Proof.
  revert n k. induction s as [|c s IH]; intros n k.
  - rewrite occurrences_from_empty. destruct k; simpl drop_chars;
      destruct (String.prefix t "") eqn:E; try reflexivity;
      intros []%elem_of_nil.
  - rewrite occurrences_from_cons. intros [H|H]%elem_of_app.
    + destruct (String.prefix t (String c s)) eqn:E.
      * apply list_elem_of_singleton in H. assert (k = 0%nat) as -> by lia. exact E.
      * apply elem_of_nil in H. destruct H.
    + pose proof (occurrences_from_ge _ _ _ _ H) as Hge.
      destruct k as [|k]; [lia|].
      replace (n + S k)%nat with (S n + k)%nat in H by lia.
      exact (IH (S n) k H).
Qed.

(** What [wrap_once] returns is [s] with one occurrence of [t] wrapped and
    the characters before and after it kept. *)
Lemma wrap_once_shape s t r :
  wrap_once s t = Some r ->
  exists p q, s = p +:+ t +:+ q /\ r = p +:+ "<i>" +:+ t +:+ "</i>" +:+ q.
Proof.
  unfold wrap_once, occurrences.
  destruct t as [|a t]; [discriminate|].
  destruct (occurrences_from (String a t) 0 s) as [|k [|? ?]] eqn:Hocc;
    [discriminate| |discriminate].
  intros [= <-].
  exists (take_chars k s), (drop_chars (k + String.length (String a t)) s). split.
  - assert (Hin : (0 + k)%nat ∈ occurrences_from (String a t) 0 s)
      by (rewrite Hocc; left).
    apply occurrences_from_prefix, prefix_drop_chars in Hin.
    rewrite drop_chars_add in Hin. rewrite <- Hin. symmetry. apply take_drop_chars.
  - unfold tag. rewrite !string_app_assoc. reflexivity.
Qed.

Lemma mapM_res_cons {A B} (f : A -> res B) x l :
  mapM f (x :: l) = (y ← f x; k ← mapM f l; Ok (y :: k)).
Proof. reflexivity. Qed.

Lemma mapM_list_getitem_elem_of {A} (l : list A) idxs xs :
  mapM (list_getitem l) idxs = Ok xs ->
  Forall (fun x => x ∈ l) xs /\ length xs = length idxs.
Proof.
  revert xs. induction idxs as [|i idxs IH]; intros xs.
  - intros [= <-]. split; [constructor|reflexivity].
  - rewrite mapM_res_cons. destruct (list_getitem l i) as [x|e] eqn:Hx; [|discriminate].
    rewrite res_bind_Ok. destruct (mapM (list_getitem l) idxs) as [xs'|e]; [|discriminate].
    rewrite res_bind_Ok. intros [= <-]. destruct (IH xs' eq_refl) as [Hall Hlen].
    split; [constructor; [eapply list_getitem_elem_of, Hx|exact Hall]|simpl; lia].
Qed.

Lemma length_take_chars k s :
  (k <= String.length s)%nat -> String.length (take_chars k s) = k.
Proof.
  revert s. induction k as [|k IH]; intros s Hk; [destruct s; reflexivity|].
  destruct s as [|c s]; [simpl in Hk; lia|]. simpl in *. rewrite IH by lia. reflexivity.
Qed.

Lemma length_drop_chars k s :
  String.length (drop_chars k s) = (String.length s - k)%nat.
Proof.
  revert s. induction k as [|k IH]; intros s; [destruct s; simpl; lia|].
  destruct s as [|c s]; [reflexivity|]. simpl. apply IH.
Qed.

(** The leftmost occurrence of a non-empty [old] is replaced, what stands
    before it is kept, and the replacement goes on after it. *)
Lemma replace_from_leftmost_occurrence old new n k later s :
  old <> "" ->
  occurrences_from old n s = (n + k)%nat :: later ->
  replace_from old new 0 s
  = take_chars k s +:+ new
    +:+ replace_from old new 0 (drop_chars (k + String.length old) s).
Proof.
  intros Hold. revert n k. induction s as [|c s IH]; intros n k.
  - rewrite occurrences_from_empty.
    destruct old as [|a old]; [congruence|]. discriminate.
  - rewrite occurrences_from_cons, replace_from_cons.
    destruct (String.prefix old (String c s)) eqn:Hpre.
    + intros [= Hk _]. assert (k = 0%nat) as -> by lia.
      destruct old as [|a old]; [congruence|].
      change (take_chars 0 (String c s)) with "".
      change (drop_chars (0 + String.length (String a old)) (String c s))
        with (drop_chars (String.length old) s).
      change (String.length (String a old) - 1)%nat with (String.length old - 0)%nat.
      rewrite Nat.sub_0_r, replace_from_skip, string_app_empty_l. reflexivity.
    + intros Hocc. simpl app in Hocc.
      assert (S n <= n + k)%nat as Hle.
      { apply (occurrences_from_ge old (S n) s). rewrite Hocc. left. }
      destruct k as [|k]; [lia|].
      replace (n + S k)%nat with (S n + k)%nat in Hocc by lia.
      change (take_chars (S k) (String c s)) with (String c (take_chars k s)).
      change (drop_chars (S k + String.length old) (String c s))
        with (drop_chars (k + String.length old) s).
      rewrite string_app_cons. f_equal. apply (IH (S n) k Hocc).
Qed.

Lemma replace_from_replaced_all old new s :
  old <> "" -> replaced_all old new s (replace_from old new 0 s).
Proof.
  intros Hold.
  assert (Hlen : (1 <= String.length old)%nat)
    by (destruct old; [congruence|simpl; lia]).
  remember (String.length s) as n eqn:Hn.
  assert (Hle : (String.length s <= n)%nat) by lia. clear Hn.
  revert s Hle. induction n as [|n IH]; intros s Hle.
  - destruct s as [|c s]; [|simpl in Hle; lia].
    apply replaced_none. unfold occurrences. rewrite occurrences_from_empty.
    destruct old; [congruence|reflexivity].
  - destruct (occurrences old s) as [|k later] eqn:Hocc.
    + rewrite (replace_from_no_occurrence old new 0 s Hocc).
      apply replaced_none, Hocc.
    + rewrite (replace_from_leftmost_occurrence old new 0 k later s Hold Hocc).
      apply (replaced_leftmost old new s k later); [exact Hocc|].
      apply IH. rewrite length_drop_chars.
      destruct s as [|c s]; simpl in *; lia.
Qed.

Lemma replaced_all_replace_from old new s r :
  old <> "" -> replaced_all old new s r -> r = replace_from old new 0 s.
Proof.
  intros Hold. induction 1 as [s Hocc|s k later r Hocc _ IH].
  - symmetry. apply (replace_from_no_occurrence old new 0 s Hocc).
  - rewrite (replace_from_leftmost_occurrence old new 0 k later s Hold Hocc), IH.
    reflexivity.
Qed.

Lemma replaced_all_iff_str_replace old new s r :
  old <> "" -> replaced_all old new s r <-> r = str_replace s old new.
Proof.
  intros Hold.
  assert (Hrep : str_replace s old new = replace_from old new 0 s)
    by (destruct old; [congruence|reflexivity]).
  rewrite Hrep. split.
  - apply replaced_all_replace_from, Hold.
  - intros ->. apply replace_from_replaced_all, Hold.
Qed.

Lemma marked_iff_mark_typos s typos detected :
  Forall (fun t => t <> "") typos ->
  marked s typos detected <-> detected = mark_typos s typos.
Proof.
  intros Hall. revert s. induction Hall as [|t typos Ht _ IH]; intros s.
  - split; [inversion 1; reflexivity|intros ->; constructor].
  - change (mark_typos s (t :: typos))
      with (mark_typos (str_replace s t (tag t)) typos).
    split.
    + inversion 1 as [|? ? ? s' ? Hrep Hrest]; subst.
      apply (replaced_all_iff_str_replace _ _ _ _ Ht) in Hrep. subst s'.
      apply IH, Hrest.
    + intros ->. apply (marked_cons s t typos (str_replace s t (tag t))).
      * apply replaced_all_iff_str_replace; [exact Ht|reflexivity].
      * apply IH. reflexivity.
Qed.

(** C3, as stated, fails: [str.replace] wraps every occurrence of the text
    of a detected word, also inside another word.  With word 0 of "a cat"
    detected, the "a" of "cat" is wrapped too. *)
Lemma show_typos_wraps_other_occurrences_counterexample :
  sentence_split "a cat" = ["a"; "cat"]
  /\ show_typos_detected "a cat" [0] = Ok "<i>a</i> c<i>a</i>t"
  /\ mark_words_at "a cat" [0] = "<i>a</i> cat"
  /\ show_typos_detected "a cat" [0] <> Ok (mark_words_at "a cat" [0]).
Proof. repeat split. discriminate. Qed.

(** C3, amended: [show_typos] takes the words at the detected indices of
    [sentence_split(sentence)] and, for each in turn, replaces every
    occurrence of its text in the string annotated so far by the text
    wrapped in '<i>'...'</i>', the occurrences found from left to right and
    not overlapping ([marked], [replaced_all]); it prints that string and no
    other.  When each of these texts occurs exactly once in the string
    annotated so far, the string printed has exactly these occurrences
    wrapped and every other character unchanged ([wrap_each_once],
    [wrap_once_shape]). *)
Theorem show_typos_wraps_every_occurrence (sentence : string)
    (typo_indexes : list Z) (typos : list string) :
  mapM (list_getitem (sentence_split sentence)) typo_indexes = Ok typos ->
  (forall detected,
     show_typos_detected sentence typo_indexes = Ok detected
     <-> marked sentence typos detected)
  /\ (forall detected,
        wrap_each_once sentence typos = Some detected ->
        show_typos_detected sentence typo_indexes = Ok detected).
Proof.
  intros Htypos. unfold show_typos_detected. rewrite Htypos, res_bind_Ok.
  assert (Hnonempty : Forall (fun t => t <> "") typos).
  { apply mapM_list_getitem_elem_of in Htypos. destruct Htypos as [Hall _].
    eapply Forall_impl; [exact Hall|]. intros t Ht.
    unfold sentence_split in Ht. apply list_elem_of_In, filter_In in Ht.
    destruct Ht as [_ Hk]. fold (kept t) in Hk. apply kept_true in Hk. tauto. }
  split.
  - intros detected. rewrite (marked_iff_mark_typos _ _ _ Hnonempty).
    split; [intros [= <-]; reflexivity|intros ->; reflexivity].
  - intros detected Hwrap. f_equal. apply wrap_each_once_mark_typos, Hwrap.
Qed.

Lemma show_typos_wraps_every_occurrence_witness :
  (forall detected,
     show_typos_detected "a cat, a dog" [0; 4] = Ok detected
     <-> marked "a cat, a dog" ["a"; "dog"] detected)
  /\ (forall detected,
        wrap_each_once "a cat, a dog" ["a"; "dog"] = Some detected ->
        show_typos_detected "a cat, a dog" [0; 4] = Ok detected).
Proof.
  apply (show_typos_wraps_every_occurrence "a cat, a dog" [0; 4] ["a"; "dog"]).
  vm_compute. reflexivity.
Defined.

(** Every "a" of the sentence is wrapped, from left to right, and then the
    one "dog". *)
Example marked_demo :
  marked "a cat, a dog" ["a"; "dog"]
    "<i>a</i> c<i>a</i>t, <i>a</i> <i>dog</i>".
Proof.
  apply (marked_cons _ _ _ "<i>a</i> c<i>a</i>t, <i>a</i> dog").
  - apply (replaced_leftmost "a" (tag "a") "a cat, a dog" 0 [3; 7]%nat
             " c<i>a</i>t, <i>a</i> dog"); [reflexivity|].
    apply (replaced_leftmost "a" (tag "a") " cat, a dog" 2 [6]%nat
             "t, <i>a</i> dog"); [reflexivity|].
    apply (replaced_leftmost "a" (tag "a") "t, a dog" 3 []
             " dog"); [reflexivity|].
    apply replaced_none. reflexivity.
  - apply (marked_cons _ _ _ "<i>a</i> c<i>a</i>t, <i>a</i> <i>dog</i>").
    + apply (replaced_leftmost "dog" (tag "dog")
               "<i>a</i> c<i>a</i>t, <i>a</i> dog" 30 [] ""); [reflexivity|].
      apply replaced_none. reflexivity.
    + apply marked_nil.
Qed.

(** ** Collection of the calibration data *)

Module WhisperProperties.
Import Whisper.
Section WhisperProperties.
Context {tensor feed cache model : Type}.
Context (encoder_infer : model -> tensor -> res tensor).
Context (make_feed_dict : tensor -> tensor -> res feed).
Context (preprocess_kv_cache_inputs : model -> feed -> option cache -> res feed).
Context (decoder_infer : model -> feed -> res tensor).

Local Abbreviation globals := (@globals tensor feed).

(** C10: in [with calibration_data_collection(): body], the body starts
    with the flag [COLLECT_CALIBRATION_DATA] set to True; after the
    statement the flag is False, whether the body has returned or raised;
    the context manager changes nothing else and lets the outcome of the
    body, an exception included, through. *)
Theorem calibration_data_collection_resets_flag {A} (body : cell A) (g : globals) :
  let entered := snd (calibration_data_collection_enter g) in
  let left := snd (calibration_data_collection body g) in
  COLLECT_CALIBRATION_DATA entered = true
  /\ encoder_calibration_data entered = encoder_calibration_data g
  /\ decoder_calibration_data entered = decoder_calibration_data g
  /\ COLLECT_CALIBRATION_DATA left = false
  /\ encoder_calibration_data left = encoder_calibration_data (snd (body entered))
  /\ decoder_calibration_data left = decoder_calibration_data (snd (body entered))
  /\ fst (calibration_data_collection body g) = fst (body entered).
Proof.
  unfold calibration_data_collection. simpl.
  destruct (body (set_COLLECT_CALIBRATION_DATA true g)) as [r g2].
  repeat split.
Qed.

(** A body that raises: the flag is reset and the exception goes on. *)
Lemma calibration_data_collection_raising_body (e : error) (g : globals) :
  calibration_data_collection (fun g1 => (@Raise unit e, g1)) g
  = (Raise e, set_COLLECT_CALIBRATION_DATA false g).
Proof. destruct g. reflexivity. Qed.

(** C5, amended: [encoder_forward] and [decoder_forward] read the global
    flag [COLLECT_CALIBRATION_DATA] and never write it.  When it is False
    they leave every global unchanged.  When it is True, [encoder_forward]
    appends its input to the global list [encoder_calibration_data], and
    [decoder_forward] appends the feed dictionary, when building it has
    not raised, to [decoder_calibration_data]; they change nothing else. *)
Theorem forward_functions_effect_on_globals (self : model) (mel x xa : tensor)
    (kv_cache : option cache) (g : globals) :
  let after_encoder := snd (encoder_forward encoder_infer self mel g) in
  let after_decoder :=
    snd (decoder_forward make_feed_dict preprocess_kv_cache_inputs decoder_infer
           self x xa kv_cache g) in
  COLLECT_CALIBRATION_DATA after_encoder = COLLECT_CALIBRATION_DATA g
  /\ encoder_calibration_data after_encoder
     = encoder_calibration_data g
       ++ (if COLLECT_CALIBRATION_DATA g then [mel] else [])
  /\ decoder_calibration_data after_encoder = decoder_calibration_data g
  /\ COLLECT_CALIBRATION_DATA after_decoder = COLLECT_CALIBRATION_DATA g
  /\ encoder_calibration_data after_decoder = encoder_calibration_data g
  /\ decoder_calibration_data after_decoder
     = decoder_calibration_data g
       ++ (if COLLECT_CALIBRATION_DATA g
           then returned (decoder_feed make_feed_dict preprocess_kv_cache_inputs
                            self x xa kv_cache)
           else []).
Proof.
  unfold encoder_forward, decoder_forward, decoder_feed. simpl.
  destruct g as [flag enc dec]. simpl.
  destruct (make_feed_dict x xa) as [f|e];
    [rewrite res_bind_Ok; destruct (preprocess_kv_cache_inputs self f kv_cache) as [f'|e]|];
    destruct flag; simpl; rewrite ?app_nil_r; repeat split.
Qed.
End WhisperProperties.

(** C5, as stated, fails: while the data is collected, [encoder_forward]
    changes the global list [encoder_calibration_data]. *)
Lemma encoder_forward_writes_global_counterexample :
  let g := {| COLLECT_CALIBRATION_DATA := true;
              encoder_calibration_data := [] : list nat;
              decoder_calibration_data := [] : list nat |} in
  snd (encoder_forward (fun (_ : unit) mel => Ok mel) tt 7%nat g)
  = {| COLLECT_CALIBRATION_DATA := true;
       encoder_calibration_data := [7%nat];
       decoder_calibration_data := [] |}
  /\ snd (encoder_forward (fun (_ : unit) mel => Ok mel) tt 7%nat g) <> g.
Proof. split; [reflexivity|discriminate]. Qed.

(** The cell of the notebook: the data is collected inside the [with] and
    not after it. *)
Example collection_inside_with :
  let forward := encoder_forward (fun (_ : unit) (mel : nat) => Ok mel) tt in
  let g1 := snd (calibration_data_collection (forward 7%nat)
                   (initial_globals (feed := nat))) in
  let g2 := snd (forward 8%nat g1) in
  encoder_calibration_data g1 = [7%nat] /\ g2 = g1.
Proof. split; reflexivity. Qed.
End WhisperProperties.

(** ** The launch of the demo *)

Module NERProperties.
Import NER.

(** C4, as stated, fails: the cell that launches the demo catches the
    exception of a failed launch and launches again.  Here the first launch
    raises, and the cell, after two launches, has not raised. *)
Lemma launch_cell_catches_counterexample :
  launch_needs_share false 0%nat = (Raise (LibraryError "OSError"), 1%nat)
  /\ launch_cell launch_needs_share 0%nat = (Ok tt, 2%nat).
Proof. split; reflexivity. Qed.

(** C4, amended: not every failure propagates uncaught.  The cell that
    launches the demo catches an [Exception] raised by
    [demo.launch(debug=True)] and launches once more, with [share=True].
    The cell raises exactly when the first launch raises an exception that
    is not an [Exception], which propagates at once, or when the first
    launch raises an [Exception] and the second launch raises too: then the
    caller sees the second failure and the first one is dropped.  The cell
    completes exactly when the first launch does, or when the first launch
    raises an [Exception] and the second launch completes.  The try/finally
    of [calibration_data_collection] catches nothing: an exception raised
    in its body propagates. *)
Theorem launch_failure_propagates_iff {world tensor feed A : Type}
    (launch : bool -> world -> res unit * world) (w w' : world) (e : error)
    (body : Whisper.cell (tensor := tensor) (feed := feed) A)
    (g : Whisper.globals) :
  (launch_cell launch w = (Raise e, w')
   <-> (launch false w = (Raise e, w') /\ is_Exception e = false)
       \/ (exists e1 w1,
             launch false w = (Raise e1, w1) /\ is_Exception e1 = true
             /\ launch true w1 = (Raise e, w')))
  /\ (launch_cell launch w = (Ok tt, w')
      <-> launch false w = (Ok tt, w')
          \/ (exists e1 w1,
                launch false w = (Raise e1, w1) /\ is_Exception e1 = true
                /\ launch true w1 = (Ok tt, w')))
  /\ fst (Whisper.calibration_data_collection body g)
     = fst (body (snd (Whisper.calibration_data_collection_enter g))).
Proof.
  split; [|split].
  - unfold launch_cell.
    destruct (launch false w) as [[[]|e0] w0] eqn:Hfirst.
    + split; [discriminate|].
      intros [[Hf _]|(e1 & w1 & Hf & _)]; discriminate.
    + destruct (is_Exception e0) eqn:Hexc.
      * split.
        -- intros Hsecond. right. exists e0, w0. repeat split; assumption.
        -- intros [[Hf Hne]|(e1 & w1 & Hf & _ & Hsecond)].
           ++ injection Hf as <- <-. congruence.
           ++ injection Hf as <- <-. exact Hsecond.
      * split.
        -- intros [= <- <-]. left. split; [reflexivity|exact Hexc].
        -- intros [[Hf _]|(e1 & w1 & Hf & He1 & _)].
           ++ exact Hf.
           ++ injection Hf as <- <-. congruence.
  - unfold launch_cell.
    destruct (launch false w) as [[[]|e0] w0] eqn:Hfirst.
    + split; [intros H; left; exact H|].
      intros [Hf|(e1 & w1 & Hf & _)]; [exact Hf|discriminate].
    + destruct (is_Exception e0) eqn:Hexc.
      * split.
        -- intros Hsecond. right. exists e0, w0. repeat split; assumption.
        -- intros [Hf|(e1 & w1 & Hf & _ & Hsecond)]; [discriminate|].
           injection Hf as <- <-. exact Hsecond.
      * split; [discriminate|].
        intros [Hf|(e1 & w1 & Hf & He1 & _)]; [discriminate|].
        injection Hf as <- <-. congruence.
  - unfold Whisper.calibration_data_collection. simpl.
    destruct (body _) as [r g2]. reflexivity.
Qed.

Lemma launch_failure_propagates_iff_witness :
  launch_cell launch_fails 0%nat = (Raise (LibraryError "ConnectionError"), 2%nat).
Proof.
  apply (proj1 (launch_failure_propagates_iff (tensor := nat) (feed := nat)
                  launch_fails 0%nat 2%nat (LibraryError "ConnectionError")
                  (fun g => (Ok tt, g)) Whisper.initial_globals)).
  right. exists (LibraryError "OSError"), 1%nat. repeat split.
Defined.

(** A launch that succeeds is not repeated. *)
Lemma launch_cell_first_launch_ok {world : Type}
    (launch : bool -> world -> res unit * world) (w w1 : world) :
  launch false w = (Ok tt, w1) -> launch_cell launch w = (Ok tt, w1).
Proof. intros H. unfold launch_cell. rewrite H. reflexivity. Qed.
End NERProperties.

(** * Further properties of the code *)

(** ** [token_to_words] and [get_typo_indexes] together *)

(** X1: the dictionary returned by [token_to_words] has an entry for a
    string exactly when the string is one of the tokens. *)
Theorem token_to_words_keys (tokens : list string) (t : string) :
  is_Some (token_to_words tokens !! t) <-> t ∈ tokens.
Proof.
  unfold token_to_words. rewrite token_to_words_loop_lookup.
  destruct (last_index t tokens) as [i|] eqn:E.
  - split; [intros _|intros _; eexists; reflexivity].
    apply last_index_spec in E. destruct E as [E _].
    eapply list_elem_of_lookup_2, E.
  - rewrite lookup_empty. apply last_index_None in E.
    split; [intros [? ?]; discriminate|intros H; contradiction].
Qed.

Section GetTypoIndexesErrors.
Context {row : Type} (argmax : row -> Z).

(** The loop returns exactly when every flagged position has a token that
    has an entry. *)
Lemma get_typo_indexes_loop_ok_iff m tokens rows ws c :
  0 <= c ->
  (exists st, for_each (get_typo_indexes_body argmax m tokens) rows (ws, c) = Ok st)
  <-> (forall (k : nat) i, rows !! k = Some i -> argmax i = 1 ->
         exists t, tokens !! (Z.to_nat c + k)%nat = Some t /\ is_Some (m !! t)).
Proof.
  revert ws c. induction rows as [|i rows IH]; intros ws c Hc.
  - split; [intros _ k i Hk; rewrite lookup_nil in Hk; discriminate|].
    intros _. eexists. reflexivity.
  - rewrite for_each_cons, get_typo_indexes_body_eq.
    assert (Hshift : forall k, (Z.to_nat (c + 1) + k = Z.to_nat c + S k)%nat) by lia.
    destruct (bool_decide (argmax i = 1)) eqn:Hflag.
    + apply bool_decide_eq_true in Hflag.
      destruct (list_getitem tokens c) as [t|e] eqn:Ht.
      * apply list_getitem_nonneg_inv in Ht; [|exact Hc]. rewrite res_bind_Ok.
        destruct (dict_getitem m t) as [w|e] eqn:Hw.
        -- apply dict_getitem_Ok in Hw. rewrite !res_bind_Ok.
           rewrite (IH _ (c + 1)) by lia. split.
           ++ intros H [|k] i' Hk Hi'.
              ** simpl in Hk. injection Hk as <-. exists t.
                 rewrite Nat.add_0_r. split; [exact Ht|eexists; exact Hw].
              ** rewrite <- Hshift. apply (H k i' Hk Hi').
           ++ intros H k i' Hk Hi'. rewrite Hshift. apply (H (S k) i' Hk Hi').
        -- rewrite !res_bind_Raise. split; [intros [? ?]; discriminate|].
           intros H. destruct (H 0%nat i eq_refl Hflag) as (t' & Ht' & [w Hw']).
           rewrite Nat.add_0_r, Ht in Ht'. injection Ht' as <-.
           apply dict_getitem_Ok in Hw'. congruence.
      * rewrite res_bind_Raise. split; [intros [? ?]; discriminate|].
        intros H. destruct (H 0%nat i eq_refl Hflag) as (t' & Ht' & _).
        rewrite Nat.add_0_r in Ht'.
        rewrite (list_getitem_Ok _ _ _ Hc Ht') in Ht. discriminate.
    + apply bool_decide_eq_false in Hflag. rewrite res_bind_Ok.
      rewrite (IH _ (c + 1)) by lia. split.
      * intros H [|k] i' Hk Hi'.
        -- simpl in Hk. injection Hk as <-. contradiction.
        -- rewrite <- Hshift. apply (H k i' Hk Hi').
      * intros H k i' Hk Hi'. rewrite Hshift. apply (H (S k) i' Hk Hi').
Qed.

(** The exception of the loop is that of its first flagged position without
    a token (IndexError) or without an entry (KeyError). *)
Lemma get_typo_indexes_loop_error m tokens rows ws c (k : nat) i :
  0 <= c ->
  rows !! k = Some i ->
  argmax i = 1 ->
  (forall (j : nat) i', (j < k)%nat -> rows !! j = Some i' -> argmax i' = 1 ->
     exists t, tokens !! (Z.to_nat c + j)%nat = Some t /\ is_Some (m !! t)) ->
  for_each (get_typo_indexes_body argmax m tokens) rows (ws, c)
  = match tokens !! (Z.to_nat c + k)%nat with
    | None => Raise IndexError
    | Some t =>
        match m !! t with
        | None => Raise KeyError
        | Some _ => for_each (get_typo_indexes_body argmax m tokens) rows (ws, c)
        end
    end.
Proof.
  revert ws c k. induction rows as [|i0 rows IH]; intros ws c k Hc Hk Hflag Hbefore.
  - rewrite lookup_nil in Hk. discriminate.
  - assert (Hshift : forall j, (Z.to_nat (c + 1) + j = Z.to_nat c + S j)%nat) by lia.
    destruct k as [|k].
    + simpl in Hk. injection Hk as ->. rewrite Nat.add_0_r.
      destruct (tokens !! Z.to_nat c) as [t|] eqn:Ht.
      * destruct (m !! t) as [w|] eqn:Hw; [reflexivity|].
        rewrite for_each_cons, get_typo_indexes_body_eq.
        rewrite (bool_decide_eq_true_2 _ Hflag).
        rewrite (list_getitem_Ok _ _ _ Hc Ht), res_bind_Ok.
        unfold dict_getitem. rewrite Hw. reflexivity.
      * rewrite for_each_cons, get_typo_indexes_body_eq.
        rewrite (bool_decide_eq_true_2 _ Hflag).
        destruct (list_getitem tokens c) as [t|e] eqn:Hg.
        -- apply list_getitem_nonneg_inv in Hg; [congruence|exact Hc].
        -- unfold list_getitem in Hg.
           rewrite (bool_decide_eq_false_2 (c < 0)) in Hg by lia.
           rewrite (bool_decide_eq_false_2 (c < 0)) in Hg by lia.
           rewrite Ht in Hg. injection Hg as <-. reflexivity.
    + simpl in Hk.
      assert (Hstep : exists ws1,
                 get_typo_indexes_body argmax m tokens (ws, c) i0 = Ok (ws1, c + 1)).
      { rewrite get_typo_indexes_body_eq.
        destruct (bool_decide (argmax i0 = 1)) eqn:H0; [|eexists; reflexivity].
        apply bool_decide_eq_true in H0.
        destruct (Hbefore 0%nat i0) as (t & Ht & [w Hw]); [lia|reflexivity|exact H0|].
        rewrite Nat.add_0_r in Ht.
        rewrite (list_getitem_Ok _ _ _ Hc Ht), res_bind_Ok.
        rewrite (proj2 (dict_getitem_Ok m t w) Hw), res_bind_Ok.
        eexists. reflexivity. }
      destruct Hstep as [ws1 Hstep].
      rewrite for_each_cons, Hstep, res_bind_Ok. rewrite <- Hshift.
      apply IH; [lia|exact Hk|exact Hflag|].
      intros j i' Hj Hi' Hf. rewrite Hshift. apply (Hbefore (S j) i'); [lia|exact Hi'|exact Hf].
Qed.

Lemma get_typo_indexes_unfold result first m tokens :
  result !! 0%nat = Some first ->
  get_typo_indexes argmax result m tokens
  = (for_each (get_typo_indexes_body argmax m tokens) (slice_1_m1 first) ([], 0)
     ≫= fun st => Ok (fst st)).
Proof.
  intros Hfirst. unfold get_typo_indexes.
  rewrite (list_getitem_Ok result 0 first) by (try lia; exact Hfirst).
  rewrite res_bind_Ok. reflexivity.
Qed.

(** X2: run with the dictionary of [token_to_words] on the same tokens, and
    on an inference result with one row per token and the two special ones,
    [get_typo_indexes] returns a list: no IndexError and no KeyError. *)
Theorem get_typo_indexes_after_token_to_words (result : list (list row))
    (first : list row) (tokens : list string) :
  result !! 0%nat = Some first ->
  length first = (length tokens + 2)%nat ->
  exists wrong_words,
    get_typo_indexes argmax result (token_to_words tokens) tokens = Ok wrong_words.
Proof.
  intros Hfirst Hlen. rewrite (get_typo_indexes_unfold _ _ _ _ Hfirst).
  destruct (get_typo_indexes_loop_total argmax (token_to_words tokens) tokens
              (slice_1_m1 first) [] 0) as [st Hst].
  - intros t Ht. unfold token_to_words. rewrite token_to_words_loop_lookup.
    destruct (last_index t tokens) eqn:E; [eexists; reflexivity|].
    apply last_index_None in E. contradiction.
  - lia.
  - rewrite length_slice_1_m1. lia.
  - rewrite Hst, res_bind_Ok. eexists. reflexivity.
Qed.

(** X3: [get_typo_indexes] returns a list exactly when the result has a
    first item and every flagged row of [result[0][1:-1]] stands at the
    position of a token that has an entry in the map. *)
Theorem get_typo_indexes_returns_iff (result : list (list row))
    (map_to_words : gmap string Z) (tokens : list string) :
  (exists wrong_words,
     get_typo_indexes argmax result map_to_words tokens = Ok wrong_words)
  <-> exists first,
        result !! 0%nat = Some first
        /\ forall (k : nat) i,
             slice_1_m1 first !! k = Some i -> argmax i = 1 ->
             exists t, tokens !! k = Some t /\ is_Some (map_to_words !! t).
Proof.
  split.
  - intros [ws Hws]. unfold get_typo_indexes in Hws.
    destruct (list_getitem result 0) as [first|e] eqn:Hfirst; [|discriminate].
    apply list_getitem_nonneg_inv in Hfirst; [|lia].
    rewrite res_bind_Ok in Hws. exists first. split; [exact Hfirst|].
    destruct (for_each _ _ _) as [st|e] eqn:Hloop; [|discriminate].
    apply (get_typo_indexes_loop_ok_iff map_to_words tokens (slice_1_m1 first) [] 0);
      [lia|]. exists st. exact Hloop.
  - intros (first & Hfirst & Hall).
    rewrite (get_typo_indexes_unfold _ _ _ _ Hfirst).
    destruct (proj2 (get_typo_indexes_loop_ok_iff map_to_words tokens
                       (slice_1_m1 first) [] 0 ltac:(lia)) Hall) as [st Hst].
    rewrite Hst, res_bind_Ok. eexists. reflexivity.
Qed.

(** X4: when the first flagged row that cannot be served stands beyond the
    tokens, [get_typo_indexes] raises IndexError; when it stands at a token
    without an entry in the map, it raises KeyError. *)
Theorem get_typo_indexes_first_error (result : list (list row)) (first : list row)
    (map_to_words : gmap string Z) (tokens : list string) (k : nat) (i : row) :
  result !! 0%nat = Some first ->
  slice_1_m1 first !! k = Some i ->
  argmax i = 1 ->
  (forall (j : nat) i', (j < k)%nat -> slice_1_m1 first !! j = Some i' ->
     argmax i' = 1 ->
     exists t, tokens !! j = Some t /\ is_Some (map_to_words !! t)) ->
  (tokens !! k = None ->
   get_typo_indexes argmax result map_to_words tokens = Raise IndexError)
  /\ (forall t, tokens !! k = Some t -> map_to_words !! t = None ->
      get_typo_indexes argmax result map_to_words tokens = Raise KeyError).
Proof.
  intros Hfirst Hk Hflag Hbefore.
  rewrite (get_typo_indexes_unfold _ _ _ _ Hfirst).
  pose proof (get_typo_indexes_loop_error map_to_words tokens (slice_1_m1 first)
                [] 0 k i ltac:(lia) Hk Hflag Hbefore) as Hloop.
  change (Z.to_nat 0 + k)%nat with k in Hloop.
  split.
  - intros Hnone. rewrite Hnone in Hloop. rewrite Hloop. reflexivity.
  - intros t Ht Hm. rewrite Ht, Hm in Hloop. rewrite Hloop. reflexivity.
Qed.
End GetTypoIndexesErrors.

Lemma get_typo_indexes_after_token_to_words_witness :
  exists wrong_words,
    get_typo_indexes np_argmax demo_result (token_to_words demo_tokens) demo_tokens
    = Ok wrong_words.
Proof.
  apply (get_typo_indexes_after_token_to_words np_argmax demo_result
           [(1, [0]); (1, [0]); (0, [1]); (0, [1]); (0, [1]); (1, [0]); (1, [0])]
           demo_tokens); reflexivity.
Defined.

Lemma get_typo_indexes_first_error_witness :
  (["a"] !! 1%nat = None ->
   get_typo_indexes np_argmax [[(1, [0]); (0, [1]); (0, [1]); (1, [0])]]
     (token_to_words ["a"]) ["a"] = Raise IndexError)
  /\ (forall t, ["a"] !! 1%nat = Some t -> token_to_words ["a"] !! t = None ->
      get_typo_indexes np_argmax [[(1, [0]); (0, [1]); (0, [1]); (1, [0])]]
        (token_to_words ["a"]) ["a"] = Raise KeyError).
Proof.
  apply (get_typo_indexes_first_error np_argmax
           [[(1, [0]); (0, [1]); (0, [1]); (1, [0])]]
           [(1, [0]); (0, [1]); (0, [1]); (1, [0])]
           (token_to_words ["a"]) ["a"] 1 (0, [1])).
  - reflexivity.
  - reflexivity.
  - reflexivity.
  - intros j i' Hj _ _. assert (j = 0%nat) as -> by lia.
    exists "a". split; [reflexivity|]. vm_compute. eexists. reflexivity.
Defined.

Example get_typo_indexes_more_rows_than_tokens :
  get_typo_indexes np_argmax [[(1, [0]); (0, [1]); (0, [1]); (1, [0])]]
    (token_to_words ["a"]) ["a"] = Raise IndexError.
Proof. vm_compute. reflexivity. Qed.

Example get_typo_indexes_missing_entry :
  get_typo_indexes np_argmax [[(1, [0]); (0, [1]); (1, [0])]] ∅ ["a"] = Raise KeyError.
Proof. vm_compute. reflexivity. Qed.

Example get_typo_indexes_empty_result :
  get_typo_indexes np_argmax [] (token_to_words ["a"]) ["a"] = Raise IndexError.
Proof. vm_compute. reflexivity. Qed.

Lemma slice_1_m1_inner {A} (r0 rN : A) (rows : list A) :
  slice_1_m1 (r0 :: rows ++ [rN]) = rows.
Proof.
  unfold slice_1_m1.
  replace (length (r0 :: rows ++ [rN]) - 1)%nat with (S (length rows))
    by (simpl; rewrite length_app; simpl; lia).
  change (take (S (length rows)) (r0 :: rows ++ [rN]))
    with (r0 :: take (length rows) (rows ++ [rN])).
  rewrite take_app_length. reflexivity.
Qed.

Section GetTypoIndexesFrame.
Context {row : Type} (argmax : row -> Z).

(** X5: [get_typo_indexes] reads the first item of the result only, and of
    it neither the first nor the last row, the two special positions. *)
Theorem get_typo_indexes_ignores_special_rows (r0 rN r0' rN' : row)
    (rows : list row) (others : list (list row))
    (map_to_words : gmap string Z) (tokens : list string) :
  get_typo_indexes argmax ((r0 :: rows ++ [rN]) :: others) map_to_words tokens
  = get_typo_indexes argmax [r0' :: rows ++ [rN']] map_to_words tokens.
Proof.
  rewrite (get_typo_indexes_unfold argmax _ (r0 :: rows ++ [rN])) by reflexivity.
  rewrite (get_typo_indexes_unfold argmax _ (r0' :: rows ++ [rN'])) by reflexivity.
  rewrite !slice_1_m1_inner. reflexivity.
Qed.

(** Rows that are not flagged are passed without a look at the tokens or at
    the map. *)
Lemma get_typo_indexes_loop_unflagged m tokens rows ws c :
  (forall i, i ∈ rows -> argmax i <> 1) ->
  for_each (get_typo_indexes_body argmax m tokens) rows (ws, c)
  = Ok (ws, c + Z.of_nat (length rows)).
Proof.
  revert c. induction rows as [|i rows IH]; intros c Hrows.
  - simpl. rewrite Z.add_0_r. reflexivity.
  - rewrite for_each_cons, get_typo_indexes_body_eq.
    rewrite bool_decide_eq_false_2 by (apply Hrows; left).
    rewrite res_bind_Ok, IH by (intros i' Hi'; apply Hrows; right; exact Hi').
    f_equal. f_equal. simpl length. lia.
Qed.

Context (tokenize : string -> list string).
Context (infer : string -> list (list row)).

(** X6: when no row of [result[0][1:-1]] is flagged, [show_typos] prints
    the sentence unchanged, whatever the tokens are. *)
Theorem show_typos_nothing_flagged (sentence : string) (first : list row) :
  infer sentence !! 0%nat = Some first ->
  (forall i, i ∈ slice_1_m1 first -> argmax i <> 1) ->
  show_typos argmax tokenize infer sentence = Ok sentence.
Proof.
  intros Hfirst Hrows. unfold show_typos.
  rewrite (get_typo_indexes_unfold argmax _ _ _ _ Hfirst).
  rewrite (get_typo_indexes_loop_unflagged _ _ _ _ _ Hrows), !res_bind_Ok.
  reflexivity.
Qed.
End GetTypoIndexesFrame.

Lemma show_typos_nothing_flagged_witness :
  show_typos np_argmax (fun _ => ["all"; "fine"])
    (fun _ => [[(1, [0]); (1, [0]); (2, [1]); (1, [0])]]) "all fine"
  = Ok "all fine".
Proof.
  apply (show_typos_nothing_flagged np_argmax (fun _ => ["all"; "fine"])
           (fun _ => [[(1, [0]); (1, [0]); (2, [1]); (1, [0])]]) "all fine"
           [(1, [0]); (1, [0]); (2, [1]); (1, [0])]).
  - reflexivity.
  - intros i Hi. change (i ∈ [(1, [0]); (2, [1])]) in Hi.
    apply elem_of_cons in Hi. destruct Hi as [->|Hi]; [vm_compute; discriminate|].
    apply list_elem_of_singleton in Hi. subst i. vm_compute. discriminate.
Defined.

(** ** More on [sentence_split] *)

Lemma is_delimiter_cases c :
  is_delimiter c = true
  <-> c = "'"%char \/ c = ","%char \/ c = "."%char \/ c = " "%char.
Proof.
  unfold is_delimiter. rewrite !orb_true_iff, !bool_decide_eq_true. tauto.
Qed.

(** The pieces of [re.split]: text without any delimiter first, then
    delimiters alone and such texts. *)
Lemma re_split_pieces s :
  exists p rest,
    re_split s = p :: rest
    /\ all_plain p = true
    /\ Forall (fun w => (exists c, is_delimiter c = true /\ w = String c "")
                        \/ all_plain w = true) rest.
Proof.
  induction s as [|c s IH].
  - exists "", []. split; [reflexivity|]. split; [reflexivity|constructor].
  - destruct IH as (p & rest & Hsplit & Hp & Hrest). simpl re_split. rewrite Hsplit.
    destruct (is_delimiter c) eqn:Hc.
    + exists "", (String c "" :: p :: rest).
      split; [reflexivity|]. split; [reflexivity|].
      constructor; [left; exists c; split; [exact Hc|reflexivity]|].
      constructor; [right; exact Hp|exact Hrest].
    + exists (String c p), rest. split; [reflexivity|]. split; [|exact Hrest].
      simpl. rewrite Hc, Hp. reflexivity.
Qed.

(** X7: every element of the list returned by [sentence_split] is one of
    the three delimiters "'", "," and "." alone, or a non-empty text without
    any of the four delimiter characters. *)
Theorem sentence_split_elements (sentence : string) (w : string) :
  w ∈ sentence_split sentence ->
  (w = "'" \/ w = "," \/ w = ".") \/ (w <> "" /\ all_plain w = true).
Proof.
  unfold sentence_split. fold kept. intros Hw.
  apply list_elem_of_In, filter_In in Hw. destruct Hw as [Hin Hkept].
  apply kept_true in Hkept. destruct Hkept as [Hspace Hempty].
  destruct (re_split_pieces sentence) as (p & rest & Hsplit & Hp & Hrest).
  rewrite Hsplit in Hin. destruct Hin as [<-|Hin]; [right; split; assumption|].
  rewrite Forall_forall in Hrest. apply list_elem_of_In in Hin.
  destruct (Hrest w Hin) as [(c & Hc & ->)|Hplain]; [|right; split; assumption].
  left. apply is_delimiter_cases in Hc.
  destruct Hc as [-> | [-> | [-> | ->]]]; auto. congruence.
Qed.

Lemma sentence_split_elements_witness :
  ("wnet" = "'" \/ "wnet" = "," \/ "wnet" = ".")
  \/ ("wnet" <> "" /\ all_plain "wnet" = true).
Proof.
  apply (sentence_split_elements "I wnet, ok" "wnet").
  vm_compute. right. left.
Defined.

Lemma remove_spaces_empty s : remove_spaces s = "" <-> only_spaces s = true.
Proof.
  induction s as [|c s IH]; simpl; [tauto|].
  destruct (bool_decide (c = " "%char)); simpl; [exact IH|].
  split; discriminate.
Qed.

Lemma join_no_empty_nil l : "" ∉ l -> join l = "" -> l = [].
Proof.
  destruct l as [|x l]; [reflexivity|]. intros Hin. simpl.
  destruct x as [|c x]; [exfalso; apply Hin; left|discriminate].
Qed.

(** X8: [sentence_split] returns the empty list exactly for the sentences
    made of spaces only, the empty sentence among them. *)
Theorem sentence_split_nil_iff (sentence : string) :
  sentence_split sentence = [] <-> only_spaces sentence = true.
Proof.
  rewrite <- remove_spaces_empty.
  destruct (re_split_join sentence) as (p & rest & Hsplit & _ & Hjoin).
  assert (Hsame : sentence_split sentence = List.filter kept (p :: rest)).
  { unfold sentence_split. rewrite Hsplit. reflexivity. }
  rewrite Hsame, <- Hjoin. split.
  - intros ->. reflexivity.
  - apply join_no_empty_nil. intros Hin.
    apply list_elem_of_In, filter_In in Hin. destruct Hin as [_ Hk].
    apply kept_true in Hk. destruct Hk as [_ Hk]. congruence.
Qed.

Lemma string_app_nil_r (s : string) : s +:+ "" = s.
Proof. induction s as [|c s IH]; [reflexivity|]. rewrite string_app_cons, IH. reflexivity. Qed.

Lemma re_split_app_delimiter a c b :
  is_delimiter c = true ->
  re_split (a +:+ String c b) = re_split a ++ String c "" :: re_split b.
Proof.
  intros Hc. induction a as [|x a IH].
  - simpl. rewrite Hc. reflexivity.
  - rewrite string_app_cons. simpl re_split. rewrite IH.
    destruct (is_delimiter x); [reflexivity|].
    destruct (re_split a) as [|piece rest] eqn:Ha; [|reflexivity].
    destruct (re_split_pieces a) as (p & r & Hsplit & _). congruence.
Qed.

(** X9: [sentence_split] works piece by piece: around a delimiter, the list
    for the whole is the list for the text before it, the delimiter itself
    unless it is a space, and the list for the text after it. *)
Theorem sentence_split_at_delimiter (before after : string) (c : ascii) :
  is_delimiter c = true ->
  sentence_split (before +:+ String c after)
  = sentence_split before
    ++ (if bool_decide (c = " "%char) then [] else [String c ""])
    ++ sentence_split after.
Proof.
  intros Hc. unfold sentence_split. fold kept.
  rewrite (re_split_app_delimiter _ _ _ Hc), List.filter_app. f_equal.
  simpl List.filter. destruct (decide (c = " "%char)) as [->|Hne].
  - rewrite bool_decide_eq_true_2 by reflexivity. reflexivity.
  - rewrite bool_decide_eq_false_2 by exact Hne.
    assert (Hk : kept (String c "") = true).
    { apply kept_true. split; [|discriminate]. intros [= ->]. congruence. }
    rewrite Hk. reflexivity.
Qed.

Lemma sentence_split_at_delimiter_witness :
  sentence_split ("to the park" +:+ String ","%char " but")
  = sentence_split "to the park"
    ++ (if bool_decide (","%char = " "%char) then [] else [String ","%char ""])
    ++ sentence_split " but".
Proof. apply (sentence_split_at_delimiter "to the park" " but" ","%char). reflexivity. Defined.

(** Every piece of [re.split] is in the string, the first one at its start. *)
Lemma re_split_substrings s :
  exists p rest,
    re_split s = p :: rest
    /\ (exists q, s = p +:+ q)
    /\ Forall (fun w => exists a b, s = a +:+ w +:+ b) rest.
Proof.
  induction s as [|c s IH].
  - exists "", []. split; [reflexivity|]. split; [exists ""; reflexivity|constructor].
  - destruct IH as (p & rest & Hsplit & [q Hq] & Hrest). simpl re_split. rewrite Hsplit.
    assert (Hlift : Forall (fun w => exists a b, String c s = a +:+ w +:+ b) rest).
    { eapply Forall_impl; [exact Hrest|]. intros w (a & b & Hw).
      exists (String c a), b. rewrite string_app_cons, <- Hw. reflexivity. }
    destruct (is_delimiter c).
    + exists "", (String c "" :: p :: rest).
      split; [reflexivity|]. split; [exists (String c s); reflexivity|].
      constructor; [exists "", s; reflexivity|].
      constructor; [|exact Hlift].
      exists (String c ""), q. rewrite Hq at 1. reflexivity.
    + exists (String c p), rest. split; [reflexivity|]. split; [|exact Hlift].
      exists q. rewrite Hq at 1. reflexivity.
Qed.

(** X10: every element of the list returned by [sentence_split] occurs in
    the sentence, as it is. *)
Theorem sentence_split_elements_occur (sentence : string) (w : string) :
  w ∈ sentence_split sentence ->
  exists before after, sentence = before +:+ w +:+ after.
Proof.
  unfold sentence_split. intros Hw.
  apply list_elem_of_In, filter_In in Hw. destruct Hw as [Hin _].
  destruct (re_split_substrings sentence) as (p & rest & Hsplit & [q Hq] & Hrest).
  rewrite Hsplit in Hin. destruct Hin as [<-|Hin].
  - exists "", q. exact Hq.
  - rewrite Forall_forall in Hrest. apply Hrest, list_elem_of_In, Hin.
Qed.

Lemma sentence_split_elements_occur_witness :
  exists before after, "I wnet, ok" = before +:+ "wnet" +:+ after.
Proof.
  apply (sentence_split_elements_occur "I wnet, ok" "wnet").
  vm_compute. right. left.
Defined.

(** ** More on [show_typos] *)

(** [l[i]] returns for the indexes from [-len(l)] to [len(l) - 1], and raises
    IndexError for all others. *)
Lemma list_getitem_in_range {A} (l : list A) (i : Z) :
  - Z.of_nat (length l) <= i < Z.of_nat (length l) ->
  exists x, list_getitem l i = Ok x.
Proof.
  intros Hi. unfold list_getitem. cbv zeta.
  destruct (bool_decide (i < 0)) eqn:Hneg.
  - apply bool_decide_eq_true in Hneg.
    rewrite bool_decide_eq_false_2 by lia.
    destruct (lookup_lt_is_Some_2 l (Z.to_nat (i + Z.of_nat (length l)))) as [x Hx]; [lia|].
    rewrite Hx. eexists. reflexivity.
  - apply bool_decide_eq_false in Hneg. rewrite bool_decide_eq_false_2 by lia.
    destruct (lookup_lt_is_Some_2 l (Z.to_nat i)) as [x Hx]; [lia|].
    rewrite Hx. eexists. reflexivity.
Qed.

Lemma list_getitem_out_of_range {A} (l : list A) (i : Z) :
  ~ (- Z.of_nat (length l) <= i < Z.of_nat (length l)) ->
  list_getitem l i = Raise IndexError.
Proof.
  intros Hi. unfold list_getitem. cbv zeta.
  destruct (bool_decide (i < 0)) eqn:Hneg.
  - apply bool_decide_eq_true in Hneg.
    destruct (bool_decide (i + Z.of_nat (length l) < 0)) eqn:Hlow; [reflexivity|].
    apply bool_decide_eq_false in Hlow. lia.
  - apply bool_decide_eq_false in Hneg. rewrite bool_decide_eq_false_2 by lia.
    rewrite lookup_ge_None_2 by lia. reflexivity.
Qed.

Lemma mapM_list_getitem_Ok {A} (l : list A) (idxs : list Z) :
  Forall (fun i => - Z.of_nat (length l) <= i < Z.of_nat (length l)) idxs ->
  exists xs, mapM (list_getitem l) idxs = Ok xs.
Proof.
  induction 1 as [|i idxs Hi _ IH]; [eexists; reflexivity|].
  destruct (list_getitem_in_range l i Hi) as [x Hx]. destruct IH as [xs Hxs].
  rewrite mapM_res_cons, Hx, res_bind_Ok, Hxs, res_bind_Ok. eexists. reflexivity.
Qed.

Lemma mapM_list_getitem_Raise {A} (l : list A) (idxs : list Z) :
  ~ Forall (fun i => - Z.of_nat (length l) <= i < Z.of_nat (length l)) idxs ->
  mapM (list_getitem l) idxs = Raise IndexError.
Proof.
  induction idxs as [|i idxs IH]; intros Hnot; [exfalso; apply Hnot; constructor|].
  rewrite mapM_res_cons.
  destruct (decide (- Z.of_nat (length l) <= i < Z.of_nat (length l))) as [Hi|Hi].
  - destruct (list_getitem_in_range l i Hi) as [x Hx]. rewrite Hx, res_bind_Ok.
    rewrite IH; [reflexivity|]. intros Hall. apply Hnot. constructor; assumption.
  - rewrite (list_getitem_out_of_range l i Hi). reflexivity.
Qed.

(** X11: with [n] the number of words of [sentence_split(sentence)],
    [show_typos] prints a tagged sentence when every typo index lies between
    [-n] and [n - 1], and raises IndexError as soon as one does not. *)
Theorem show_typos_detected_index_range (sentence : string) (typo_indexes : list Z) :
  let n := Z.of_nat (length (sentence_split sentence)) in
  (Forall (fun i => - n <= i < n) typo_indexes ->
   exists detected, show_typos_detected sentence typo_indexes = Ok detected)
  /\ (~ Forall (fun i => - n <= i < n) typo_indexes ->
      show_typos_detected sentence typo_indexes = Raise IndexError).
Proof.
  intros n. unfold show_typos_detected. split.
  - intros Hall. destruct (mapM_list_getitem_Ok _ _ Hall) as [typos Htypos].
    rewrite Htypos, res_bind_Ok. eexists. reflexivity.
  - intros Hnot. rewrite (mapM_list_getitem_Raise _ _ Hnot). reflexivity.
Qed.

Lemma show_typos_detected_index_range_witness :
  (exists detected, show_typos_detected "teh cat" [1; -2] = Ok detected)
  /\ show_typos_detected "teh cat" [2] = Raise IndexError.
Proof.
  split.
  - apply (proj1 (show_typos_detected_index_range "teh cat" [1; -2])).
    repeat constructor; simpl; lia.
  - apply (proj2 (show_typos_detected_index_range "teh cat" [2])).
    intros H. inversion H as [|? ? Hi _]. simpl in Hi. lia.
Defined.

Example show_typos_detected_more_tokens_than_words :
  show_typos_detected "so-so" [1] = Raise IndexError.
Proof. reflexivity. Qed.

(** ** Runs of the forward functions *)

Module WhisperCallsProperties.
Import Whisper WhisperCalls.
Section WhisperCallsProperties.
Context {tensor feed cache model : Type}.
Context (encoder_infer : model -> tensor -> res tensor).
Context (make_feed_dict : tensor -> tensor -> res feed).
Context (preprocess_kv_cache_inputs : model -> feed -> option cache -> res feed).
Context (decoder_infer : model -> feed -> res tensor).

Local Abbreviation globals := (@globals tensor feed).
Local Abbreviation forward_call := (@forward_call tensor cache model).
Local Abbreviation run_calls :=
  (run_calls encoder_infer make_feed_dict preprocess_kv_cache_inputs decoder_infer).
Local Abbreviation run_call :=
  (run_call encoder_infer make_feed_dict preprocess_kv_cache_inputs decoder_infer).
Local Abbreviation call_outcome :=
  (call_outcome encoder_infer make_feed_dict preprocess_kv_cache_inputs decoder_infer).
Local Abbreviation started :=
  (started encoder_infer make_feed_dict preprocess_kv_cache_inputs decoder_infer).
Local Abbreviation run_outcome :=
  (run_outcome encoder_infer make_feed_dict preprocess_kv_cache_inputs decoder_infer).
Local Abbreviation record_samples :=
  (record_samples make_feed_dict preprocess_kv_cache_inputs).

Lemma record_samples_nil (g : globals) : record_samples [] g = g.
Proof. destruct g. unfold record_samples. simpl. rewrite !app_nil_r. reflexivity. Qed.

Lemma record_samples_cons (c : forward_call) calls (g : globals) :
  record_samples (c :: calls) g = record_samples calls (record_samples [c] g).
Proof.
  destruct g. unfold record_samples, encoder_samples, decoder_samples. simpl.
  rewrite !app_nil_r, <- !app_assoc. reflexivity.
Qed.

(** One call: its outcome does not depend on the globals, and its sample is
    recorded when the flag is set, before the model runs. *)
Lemma run_call_eq (c : forward_call) (g : globals) :
  run_call c g
  = (call_outcome c, if COLLECT_CALIBRATION_DATA g then record_samples [c] g else g).
Proof.
  destruct g as [flag enc dec]. destruct c as [self mel|self x xa kv].
  - unfold WhisperCalls.run_call, encoder_forward, WhisperCalls.record_samples. simpl.
    destruct flag; [|reflexivity]. rewrite app_nil_r. reflexivity.
  - unfold WhisperCalls.run_call, decoder_forward, WhisperCalls.call_outcome,
      WhisperCalls.record_samples, decoder_samples. simpl. unfold decoder_feed.
    destruct (make_feed_dict x xa) as [f|e]; simpl.
    + rewrite ?res_bind_Ok.
      destruct (preprocess_kv_cache_inputs self f kv) as [f'|e]; simpl.
      * destruct flag; [|reflexivity]. rewrite !app_nil_r. reflexivity.
      * destruct flag; [|reflexivity]. rewrite !app_nil_r. reflexivity.
    + destruct flag; [|reflexivity]. rewrite !app_nil_r. reflexivity.
Qed.

Lemma run_calls_flag (calls : list forward_call) (g : globals) :
  run_calls calls g
  = (run_outcome calls,
     if COLLECT_CALIBRATION_DATA g then record_samples (started calls) g else g).
Proof.
  revert g. induction calls as [|c calls IH]; intros g.
  - simpl. destruct (COLLECT_CALIBRATION_DATA g); [rewrite record_samples_nil|];
      reflexivity.
  - simpl WhisperCalls.run_calls. rewrite run_call_eq.
    simpl WhisperCalls.run_outcome. simpl WhisperCalls.started.
    destruct (call_outcome c) as [t|e].
    + rewrite IH. destruct (COLLECT_CALIBRATION_DATA g) eqn:Hflag.
      * replace (COLLECT_CALIBRATION_DATA (record_samples [c] g)) with true
          by (destruct g; simpl in *; congruence).
        rewrite (record_samples_cons c (started calls) g). reflexivity.
      * rewrite Hflag. reflexivity.
    + reflexivity.
Qed.

(** X13: forward calls made inside [with calibration_data_collection()]
    are recorded one by one, in order, up to the first call that raises: an
    encoder call leaves its input, also when the model then raises on it; a
    decoder call leaves its feed dictionary unless building it has raised.
    After the statement the flag is False and the first exception, if any,
    has gone through. *)
Theorem collection_records_started_calls (calls : list forward_call) (g : globals) :
  calibration_data_collection (run_calls calls) g
  = (run_outcome calls,
     {| COLLECT_CALIBRATION_DATA := false;
        encoder_calibration_data :=
          encoder_calibration_data g ++ encoder_samples (started calls);
        decoder_calibration_data :=
          decoder_calibration_data g
          ++ decoder_samples make_feed_dict preprocess_kv_cache_inputs
               (started calls) |}).
Proof.
  unfold calibration_data_collection, calibration_data_collection_enter,
    calibration_data_collection_finally.
  rewrite run_calls_flag. destruct g as [flag enc dec]. reflexivity.
Qed.

(** X14: forward calls made while the flag is False leave the globals as
    they are, however many they are and whatever they return. *)
Theorem run_calls_outside_collection (calls : list forward_call) (g : globals) :
  COLLECT_CALIBRATION_DATA g = false ->
  run_calls calls g = (run_outcome calls, g).
Proof. intros Hflag. rewrite run_calls_flag, Hflag. reflexivity. Qed.
End WhisperCallsProperties.

Lemma run_calls_outside_collection_witness :
  run_calls (fun (_ : unit) (mel : nat) => Ok mel) (fun x _ => Ok x)
    (fun _ f (_ : option unit) => Ok f) (fun _ f => Ok f)
    [EncoderCall tt 7%nat; DecoderCall tt 1%nat 2%nat None]
    (initial_globals (tensor := nat) (feed := nat))
  = (Ok tt, initial_globals).
Proof.
  apply (run_calls_outside_collection (fun (_ : unit) (mel : nat) => Ok mel)
           (fun x _ => Ok x) (fun _ f (_ : option unit) => Ok f) (fun _ f => Ok f)
           [EncoderCall tt 7%nat; DecoderCall tt 1%nat 2%nat None] initial_globals).
  reflexivity.
Defined.

(** A sample on which the encoder raises is recorded all the same, and the
    calls after it are not made. *)
Example collection_keeps_failing_sample :
  calibration_data_collection
    (run_calls (fun (_ : unit) (mel : nat) =>
                  if Nat.eqb mel 8 then Raise (LibraryError "RuntimeError") else Ok mel)
       (fun x _ => Ok x) (fun _ f (_ : option unit) => Ok f) (fun _ f => Ok f)
       [EncoderCall tt 7%nat; EncoderCall tt 8%nat; EncoderCall tt 9%nat])
    (initial_globals (tensor := nat) (feed := nat))
  = (Raise (LibraryError "RuntimeError"),
     {| COLLECT_CALIBRATION_DATA := false;
        encoder_calibration_data := [7%nat; 8%nat];
        decoder_calibration_data := [] |}).
Proof. reflexivity. Qed.
End WhisperCallsProperties.

(** ** The helpers of the wav2vec2 notebook *)

Lemma for_each_ext {A S} (f g : S -> A -> res S) l s :
  (forall s x, f s x = g s x) -> for_each f l s = for_each g l s.
Proof.
  intros Hfg. revert s. induction l as [|x l IH]; intros s; [reflexivity|].
  rewrite !for_each_cons, Hfg. destruct (g s x) as [s'|e]; [|reflexivity].
  rewrite !res_bind_Ok. apply IH.
Qed.

Lemma res_bind_assoc {A B C} (r : res A) (f : A -> res B) (g : B -> res C) :
  ((r ≫= f) ≫= g) = (r ≫= fun x => f x ≫= g).
Proof. destruct r; reflexivity. Qed.

Module Wav2Vec2Properties.
Import Wav2Vec2.
Section Wav2Vec2Properties.
Context {value ndarray port outputs logits ids transcription metric score : Type}.
Context {ov_model : Type}.
Context (value_getitem : value -> string -> res value).
Context (processor : value -> value -> res value).
Context (np_array : value -> res ndarray).
Context (model_output : ov_model -> res port).
Context (model_call : ov_model -> ndarray -> res outputs).
Context (outputs_getitem : outputs -> port -> res logits).
Context (np_argmax_last : logits -> res ids).
Context (torch_from_numpy : ids -> res ids).
Context (batch_decode : ids -> res transcription).
Context (WordErrorRate : res metric).
Context (wer_update : metric -> transcription -> list value -> res metric).
Context (wer_compute : metric -> res score).
Context (one_minus : score -> score).

(** X15: [validation_fn] is [compute_wer] run with [ov_infer], with its
    result subtracted from one: on every model and dataset the two loops
    make the same library calls in the same order, and fail on the same
    sample with the same exception. *)
Theorem validation_fn_is_one_minus_compute_wer (model : ov_model)
    (dataset : list (gmap string value)) :
  validation_fn np_array model_output model_call outputs_getitem np_argmax_last
    torch_from_numpy batch_decode WordErrorRate wer_update wer_compute one_minus
    model dataset
  = (compute_wer WordErrorRate wer_update wer_compute dataset model
       (ov_infer np_array model_output model_call outputs_getitem np_argmax_last
          torch_from_numpy batch_decode)
     ≫= fun result => Ok (one_minus result)).
Proof.
  unfold validation_fn, compute_wer.
  destruct WordErrorRate as [wer|e]; [|reflexivity]. rewrite !res_bind_Ok.
  rewrite res_bind_assoc. f_equal.
  apply for_each_ext. intros s sample. unfold ov_infer.
  repeat (rewrite res_bind_assoc;
          match goal with
          | |- (?r ≫= _) = (?r ≫= _) => destruct r; [rewrite !res_bind_Ok|reflexivity]
          end).
  reflexivity.
Qed.

(** X16: when [map_to_input] returns, the batch has a column "audio", the
    processor has been called on its "array" and its "sampling_rate", and
    the result is the batch with the column "input_values" set to what the
    processor returned and every other column as it was; [transform_fn] on
    that batch, also after the column "audio" has been removed from it,
    finds the column and hands that value to [np.array]. *)
Theorem transform_fn_after_map_to_input (batch batch' : gmap string value) :
  map_to_input value_getitem processor batch = Ok batch' ->
  exists audio array sampling_rate input_values,
    batch !! "audio" = Some audio
    /\ value_getitem audio "array" = Ok array
    /\ value_getitem audio "sampling_rate" = Ok sampling_rate
    /\ processor array sampling_rate = Ok input_values
    /\ batch' = <["input_values" := input_values]> batch
    /\ transform_fn np_array batch' = np_array input_values
    /\ transform_fn np_array (delete "audio" batch') = np_array input_values.
Proof.
  unfold map_to_input, dict_get.
  destruct (batch !! "audio") as [audio|] eqn:Haudio; [|discriminate].
  rewrite res_bind_Ok.
  destruct (value_getitem audio "array") as [array|e] eqn:Harray; [|discriminate].
  rewrite !res_bind_Ok.
  destruct (value_getitem audio "sampling_rate") as [rate|e] eqn:Hrate; [|discriminate].
  rewrite res_bind_Ok.
  destruct (processor array rate) as [input_values|e] eqn:Hproc; [|discriminate].
  rewrite res_bind_Ok. intros [= <-]. exists audio, array, rate, input_values.
  repeat (split; [reflexivity || assumption|]). unfold transform_fn, dict_get.
  rewrite lookup_delete_ne by discriminate.
  rewrite lookup_insert_eq, res_bind_Ok. split; reflexivity.
Qed.

(** [map_to_input] raises KeyError on a batch without the column "audio",
    before the processor is called. *)
Lemma map_to_input_without_audio (batch : gmap string value) :
  batch !! "audio" = None ->
  map_to_input value_getitem processor batch = Raise KeyError.
Proof. intros H. unfold map_to_input, dict_get. rewrite H. reflexivity. Qed.
End Wav2Vec2Properties.

Lemma transform_fn_after_map_to_input_witness :
  exists audio array sampling_rate input_values : nat,
    ({["audio" := 3%nat]} : gmap string nat) !! "audio" = Some audio
    /\ (if String.eqb "array" "array" then Ok audio else Ok 16%nat) = Ok array
    /\ (if String.eqb "sampling_rate" "array" then Ok audio else Ok 16%nat)
       = Ok sampling_rate
    /\ Ok (array + sampling_rate)%nat = Ok input_values
    /\ <["input_values" := 19%nat]> ({["audio" := 3%nat]} : gmap string nat)
       = <["input_values" := input_values]> {["audio" := 3%nat]}
    /\ transform_fn (fun v => Ok [v])
         (<["input_values" := 19%nat]> ({["audio" := 3%nat]} : gmap string nat))
       = Ok [input_values]
    /\ transform_fn (fun v => Ok [v])
         (delete "audio"
            (<["input_values" := 19%nat]> ({["audio" := 3%nat]} : gmap string nat)))
       = Ok [input_values].
Proof.
  apply (transform_fn_after_map_to_input
           (fun v key => if String.eqb key "array" then Ok v else Ok 16%nat)
           (fun array rate => Ok (array + rate)%nat)
           (fun v => Ok [v])
           {["audio" := 3%nat]}).
  vm_compute. reflexivity.
Defined.
End Wav2Vec2Properties.

(** ** The typo detector on tokens that are all different *)

(** X17: a token that does not occur again later in the list is mapped by
    [token_to_words] to the index of the word that it belongs to; so when
    all tokens are different, every token is. *)
Theorem token_to_words_last_position (tokens : list string) (i : nat) (t : string) :
  tokens !! i = Some t ->
  t ∉ drop (S i) tokens ->
  token_to_words tokens !! t = Some (word_index_at tokens i).
Proof.
  intros Hi Hlater. unfold token_to_words. rewrite token_to_words_loop_lookup.
  assert (Hlast : last_index t tokens = Some i).
  { apply last_index_spec. split; [exact Hi|]. intros j Hj Htj. apply Hlater.
    apply list_elem_of_lookup. exists (j - S i)%nat. rewrite lookup_drop.
    replace (S i + (j - S i))%nat with j by lia. exact Htj. }
  rewrite Hlast. unfold word_index_at. f_equal. lia.
Qed.

Lemma token_to_words_last_position_witness :
  token_to_words ["the"; "c"; "##at"; "the"] !! "##at"
  = Some (word_index_at ["the"; "c"; "##at"; "the"] 2).
Proof.
  apply (token_to_words_last_position ["the"; "c"; "##at"; "the"] 2 "##at").
  - reflexivity.
  - simpl. intros H. apply list_elem_of_singleton in H. discriminate.
Defined.

Lemma NoDup_lookup_not_later (tokens : list string) i t :
  NoDup tokens -> tokens !! i = Some t -> t ∉ drop (S i) tokens.
Proof.
  intros Hnd Hi Hin. apply list_elem_of_lookup in Hin. destruct Hin as [j Hj].
  rewrite lookup_drop in Hj.
  pose proof (NoDup_lookup _ _ _ _ Hnd Hi Hj). lia.
Qed.

Section DistinctTokens.
Context {row : Type} (argmax : row -> Z).

Lemma flagged_words_cons m t tokens i rows :
  flagged_words argmax m (t :: tokens) (i :: rows)
  = match (if bool_decide (argmax i = 1) then m !! t else None) with
    | Some w => w :: flagged_words argmax m tokens rows
    | None => flagged_words argmax m tokens rows
    end.
Proof. reflexivity. Qed.

Lemma flagged_words_distinct_tokens tokens rows c :
  NoDup tokens ->
  (c + length rows <= length tokens)%nat ->
  flagged_words argmax (token_to_words tokens) (drop c tokens) rows
  = List.map (word_index_at tokens) (flagged_positions_from argmax c rows).
Proof.
  intros Hnd. revert c. induction rows as [|i rows IH]; intros c Hlen.
  - reflexivity.
  - simpl in Hlen.
    destruct (lookup_lt_is_Some_2 tokens c) as [t Ht]; [lia|].
    rewrite (drop_S _ _ _ Ht), flagged_words_cons, IH by lia.
    simpl flagged_positions_from.
    destruct (bool_decide (argmax i = 1)); [|reflexivity].
    unfold token_to_words at 1.
    rewrite (token_to_words_loop_lookup tokens (-1) ∅ t).
    assert (Hlast : last_index t tokens = Some c).
    { apply last_index_spec. split; [exact Ht|]. intros j Hj Htj.
      pose proof (NoDup_lookup _ _ _ _ Hnd Ht Htj). lia. }
    rewrite Hlast. simpl. f_equal. unfold word_index_at. lia.
Qed.

(** X18: when all tokens are different and the result has one row per
    token and the two special ones, [get_typo_indexes], run with the
    dictionary of [token_to_words], returns the indexes of the words of the
    flagged tokens, each once, in the order of the tokens. *)
Theorem get_typo_indexes_distinct_tokens (result : list (list row))
    (first : list row) (tokens : list string) :
  NoDup tokens ->
  result !! 0%nat = Some first ->
  length first = (length tokens + 2)%nat ->
  get_typo_indexes argmax result (token_to_words tokens) tokens
  = Ok (first_occurrences []
          (List.map (word_index_at tokens)
             (flagged_positions_from argmax 0 (slice_1_m1 first)))).
Proof.
  intros Hnd Hfirst Hlen.
  destruct (get_typo_indexes_loop_total argmax (token_to_words tokens) tokens
              (slice_1_m1 first) [] 0) as [[ws c] Hst].
  - intros t Ht. unfold token_to_words. rewrite token_to_words_loop_lookup.
    destruct (last_index t tokens) eqn:E; [eexists; reflexivity|].
    apply last_index_None in E. contradiction.
  - lia.
  - rewrite length_slice_1_m1. lia.
  - rewrite (get_typo_indexes_unfold argmax _ _ _ _ Hfirst), Hst, res_bind_Ok.
    apply get_typo_indexes_loop_result in Hst; [|lia].
    change (drop (Z.to_nat 0) tokens) with tokens in Hst.
    rewrite <- (flagged_words_distinct_tokens tokens (slice_1_m1 first) 0 Hnd)
      by (rewrite length_slice_1_m1; lia).
    rewrite Hst. reflexivity.
Qed.
End DistinctTokens.

Lemma get_typo_indexes_distinct_tokens_witness :
  get_typo_indexes np_argmax demo_result (token_to_words demo_tokens) demo_tokens
  = Ok (first_occurrences []
          (List.map (word_index_at demo_tokens)
             (flagged_positions_from np_argmax 0
                (slice_1_m1
                   [(1, [0]); (1, [0]); (0, [1]); (0, [1]); (0, [1]); (1, [0]);
                    (1, [0])])))).
Proof.
  apply (get_typo_indexes_distinct_tokens np_argmax demo_result
           [(1, [0]); (1, [0]); (0, [1]); (0, [1]); (0, [1]); (1, [0]); (1, [0])]
           demo_tokens).
  - apply (bool_decide_unpack _). vm_compute. exact I.
  - reflexivity.
  - reflexivity.
Defined.

(** ** The launches of the demo *)

(** X19: the cell launches the demo once without [share] and, only when
    that launch has raised an [Exception], once more with [share=True]; it
    never makes a third launch. *)
Theorem launch_cell_launches {world : Type}
    (launch : bool -> world -> res unit * world) (w : world) :
  snd (snd (NER.launch_cell (logged launch) (w, [])))
  = match fst (launch false w) with
    | Ok _ => [false]
    | Raise e => if is_Exception e then [false; true] else [false]
    end.
Proof.
  unfold NER.launch_cell, logged. simpl.
  destruct (launch false w) as [[[]|e] w1]; simpl; [reflexivity|].
  destruct (is_Exception e); [|reflexivity].
  destruct (launch true w1) as [r w2]. reflexivity.
Qed.

(** ** The length of the tagged sentence *)

Lemma length_string_app (a b : string) :
  String.length (a +:+ b) = (String.length a + String.length b)%nat.
Proof. induction a as [|c a IH]; simpl; [reflexivity|]. rewrite IH. reflexivity. Qed.

Lemma prefix_string_app (old b : string) : String.prefix old (old +:+ b) = true.
Proof.
  induction old as [|x old IH]; [destruct b; reflexivity|].
  simpl. destruct (ascii_dec x x) as [_|Hne]; [exact IH|congruence].
Qed.

Lemma replace_from_length_ge old new k s :
  (1 <= String.length old <= String.length new)%nat ->
  (String.length s
   <= String.length (replace_from old new k s) + Nat.min k (String.length s))%nat.
Proof.
  intros Hlen. revert k. induction s as [|c s IH]; intros k; [simpl; lia|].
  destruct k as [|k].
  - rewrite replace_from_cons. destruct (String.prefix old (String c s)).
    + rewrite length_string_app. specialize (IH (String.length old - 1)%nat).
      simpl String.length. lia.
    + specialize (IH 0%nat). simpl String.length. lia.
  - change (replace_from old new (S k) (String c s)) with (replace_from old new k s).
    specialize (IH k). simpl String.length. lia.
Qed.

Lemma replace_from_length_occurrence old new a b :
  (1 <= String.length old <= String.length new)%nat ->
  (String.length (a +:+ old +:+ b) + (String.length new - String.length old)
   <= String.length (replace_from old new 0 (a +:+ old +:+ b)))%nat.
Proof.
  intros Hlen.
  assert (Hfound : forall c s, String.prefix old (String c s) = true ->
            (String.length (String c s) + (String.length new - String.length old)
             <= String.length (replace_from old new 0 (String c s)))%nat).
  { intros c s Hpre. rewrite replace_from_cons, Hpre, length_string_app.
    pose proof (replace_from_length_ge old new (String.length old - 1) s Hlen).
    simpl String.length. lia. }
  induction a as [|c a IH].
  - rewrite string_app_empty_l.
    destruct old as [|x old]; [simpl in Hlen; lia|].
    rewrite string_app_cons. apply Hfound.
    rewrite <- string_app_cons. apply prefix_string_app.
  - rewrite string_app_cons.
    destruct (String.prefix old (String c (a +:+ old +:+ b))) eqn:Hpre.
    + apply Hfound, Hpre.
    + rewrite replace_from_cons, Hpre. simpl String.length. lia.
Qed.

Lemma replace_empty_length_ge new s :
  (String.length s <= String.length (replace_empty new s))%nat.
Proof.
  induction s as [|c s IH]; simpl; [lia|].
  rewrite length_string_app. simpl. lia.
Qed.

Lemma length_tag t : String.length (tag t) = (String.length t + 7)%nat.
Proof. unfold tag. rewrite !length_string_app. simpl. lia. Qed.

Lemma str_replace_tag_length_ge s t :
  (String.length s <= String.length (str_replace s t (tag t)))%nat.
Proof.
  unfold str_replace. destruct t as [|c t]; [apply replace_empty_length_ge|].
  pose proof (replace_from_length_ge (String c t) (tag (String c t)) 0 s) as H.
  rewrite length_tag in H. simpl in H. simpl. lia.
Qed.

Lemma mark_typos_length_ge s typos :
  (String.length s <= String.length (mark_typos s typos))%nat.
Proof.
  unfold mark_typos. revert s. induction typos as [|t typos IH]; intros s; [simpl; lia|].
  simpl. etransitivity; [apply (str_replace_tag_length_ge s t)|apply IH].
Qed.

(** X20: the string that [show_typos] prints is never shorter than the
    sentence, and as soon as one typo index is detected it is longer by at
    least the seven characters of one pair of tags: at least one word is
    wrapped. *)
Theorem show_typos_detected_length (sentence : string) (typo_indexes : list Z)
    (detected : string) :
  show_typos_detected sentence typo_indexes = Ok detected ->
  (String.length sentence <= String.length detected)%nat
  /\ (typo_indexes <> [] ->
      (String.length sentence + 7 <= String.length detected)%nat).
Proof.
  unfold show_typos_detected.
  destruct (mapM _ typo_indexes) as [typos|e] eqn:Htypos; [|discriminate].
  rewrite res_bind_Ok. intros [= <-].
  split; [apply mark_typos_length_ge|]. intros Hne.
  apply mapM_list_getitem_elem_of in Htypos. destruct Htypos as [Hall Hlen].
  destruct typos as [|t typos]; [destruct typo_indexes; [congruence|discriminate]|].
  inversion Hall as [|? ? Ht _]; subst.
  assert (Hocc : exists a b, sentence = a +:+ t +:+ b).
  { unfold sentence_split in Ht. apply list_elem_of_In, filter_In in Ht.
    destruct Ht as [Hin _].
    destruct (re_split_substrings sentence) as (p & rest & Hsplit & [q Hq] & Hrest).
    rewrite Hsplit in Hin. destruct Hin as [<-|Hin].
    - exists "", q. exact Hq.
    - rewrite Forall_forall in Hrest. apply Hrest, list_elem_of_In, Hin. }
  assert (Hnonempty : t <> "").
  { unfold sentence_split in Ht. apply list_elem_of_In, filter_In in Ht.
    destruct Ht as [_ Hk]. fold (kept t) in Hk. apply kept_true in Hk. tauto. }
  destruct Hocc as (a & b & Hs).
  change (mark_typos sentence (t :: typos))
    with (mark_typos (str_replace sentence t (tag t)) typos).
  etransitivity; [|apply mark_typos_length_ge].
  destruct t as [|c t]; [congruence|]. unfold str_replace.
  pose proof (replace_from_length_occurrence (String c t) (tag (String c t)) a b) as H.
  rewrite length_tag, <- Hs in H. simpl in H. simpl. lia.
Qed.

Lemma show_typos_detected_length_witness :
  (String.length "a cat" <= String.length "<i>a</i> c<i>a</i>t")%nat
  /\ ([0] <> [] ->
      (String.length "a cat" + 7 <= String.length "<i>a</i> c<i>a</i>t")%nat).
Proof.
  apply (show_typos_detected_length "a cat" [0] "<i>a</i> c<i>a</i>t").
  reflexivity.
Defined.

(** ** The Optimum version of [show_typos] *)

Example code_points_demo : code_points "é cat" = ["é"; " "; "c"; "a"; "t"].
Proof. reflexivity. Qed.

Example show_typos_spans_counts_code_points :
  show_typos_spans "é cat" [(2, 5)] = "é <i>cat</i>".
Proof. reflexivity. Qed.

Lemma join_app (l1 l2 : list string) : join (l1 ++ l2) = join l1 +:+ join l2.
Proof.
  induction l1 as [|x l1 IH]; [reflexivity|].
  simpl. rewrite IH, string_app_assoc. reflexivity.
Qed.

(** The code points of a string are its bytes, cut into pieces none of
    which is empty. *)
Lemma code_points_join s :
  join (code_points s) = s /\ Forall (fun g => g <> "") (code_points s).
Proof.
  induction s as [|c s IH]; [split; [reflexivity|constructor]|].
  destruct IH as [Hjoin Hall]. simpl code_points.
  destruct s as [|c' s']; [split; [reflexivity|repeat constructor; discriminate]|].
  destruct (is_continuation c').
  - destruct (code_points (String c' s')) as [|g gs]; [discriminate|].
    inversion Hall as [|? ? _ Hgs]; subst. split.
    + change (join (String c g :: gs)) with (String c (join (g :: gs))).
      rewrite Hjoin. reflexivity.
    + constructor; [discriminate|exact Hgs].
  - split.
    + change (join (String c "" :: code_points (String c' s')))
        with (String c (join (code_points (String c' s')))).
      rewrite Hjoin. reflexivity.
    + constructor; [discriminate|exact Hall].
Qed.

Lemma join_nonempty (l : list string) :
  l <> [] -> Forall (fun g => g <> "") l -> join l <> "".
Proof.
  destruct l as [|x l]; [congruence|]. intros _ Hall.
  inversion Hall as [|? ? Hx _]; subst. destruct x; [congruence|discriminate].
Qed.

Lemma take_chars_app_length p r : take_chars (String.length p) (p +:+ r) = p.
Proof.
  induction p as [|c p IH]; [destruct r; reflexivity|].
  change (String c (take_chars (String.length p) (p +:+ r)) = String c p).
  rewrite IH. reflexivity.
Qed.

Lemma drop_chars_app_length p r : drop_chars (String.length p) (p +:+ r) = r.
Proof. induction p as [|c p IH]; [destruct r; reflexivity|exact IH]. Qed.

Lemma occurrences_from_app t n p q :
  (n + String.length p)%nat ∈ occurrences_from t n (p +:+ t +:+ q).
Proof.
  revert n. induction p as [|c p IH]; intros n.
  - rewrite string_app_empty_l. simpl String.length. rewrite Nat.add_0_r.
    assert (Hpre : String.prefix t (t +:+ q) = true) by apply prefix_string_app.
    destruct (t +:+ q) as [|c s].
    + rewrite occurrences_from_empty, Hpre. left.
    + rewrite occurrences_from_cons, Hpre. left.
  - rewrite string_app_cons, occurrences_from_cons. apply elem_of_app. right.
    simpl String.length. replace (n + S (String.length p))%nat
      with (S n + String.length p)%nat by lia.
    apply IH.
Qed.

(** A sentence cut at two offsets: [s[:a] + s[a:b] + s[b:]] is [s]. *)
Lemma str_slice_three_parts s a b :
  0 <= a < b -> b <= str_len s ->
  s = str_slice s 0 a +:+ str_slice s a b +:+ str_slice s b (str_len s)
  /\ str_slice s a b <> "".
Proof.
  intros Hab Hb. unfold str_slice, str_len in *. cbv zeta.
  set (cs := code_points s) in *. set (n := Z.of_nat (length cs)) in *.
  rewrite !bool_decide_eq_false_2 by lia.
  rewrite !Z.min_l by lia.
  rewrite Z.sub_0_r. change (Z.to_nat 0) with 0%nat. rewrite drop_0.
  destruct (code_points_join s) as [Hjoin Hall]. fold cs in Hjoin, Hall.
  assert (Hlast : take (Z.to_nat (n - b)) (drop (Z.to_nat b) cs) = drop (Z.to_nat b) cs).
  { apply take_ge. rewrite length_drop. lia. }
  rewrite Hlast. split.
  - rewrite <- !join_app. rewrite <- Hjoin at 1. f_equal.
    rewrite <- (take_drop (Z.to_nat a) cs) at 1. f_equal.
    rewrite <- (take_drop (Z.to_nat (b - a)) (drop (Z.to_nat a) cs)) at 1. f_equal.
    rewrite drop_drop. f_equal. lia.
  - apply join_nonempty.
    + intros Hnil. apply (f_equal length) in Hnil.
      rewrite length_take, length_drop in Hnil. simpl in Hnil. lia.
    + apply Forall_take, Forall_drop, Hall.
Qed.

(** X12: in the Optimum version, for one span [(start, end)] inside the
    sentence, offsets counted in characters, whose text occurs exactly once
    in the sentence, [show_typos] prints
    [sentence[:start] + '<i>' + sentence[start:end] + '</i>' + sentence[end:]]. *)
Theorem show_typos_spans_single_span (sentence : string) (start stop : Z) :
  0 <= start < stop ->
  stop <= str_len sentence ->
  length (occurrences (str_slice sentence start stop) sentence) = 1%nat ->
  show_typos_spans sentence [(start, stop)]
  = str_slice sentence 0 start
    +:+ "<i>" +:+ str_slice sentence start stop +:+ "</i>"
    +:+ str_slice sentence stop (str_len sentence).
Proof.
  intros Hstart Hstop Honce.
  destruct (str_slice_three_parts sentence start stop Hstart Hstop) as [Hparts Hne].
  set (p := str_slice sentence 0 start) in *.
  set (t := str_slice sentence start stop) in *.
  set (q := str_slice sentence stop (str_len sentence)) in *.
  assert (Hocc : occurrences t sentence = [String.length p]).
  { pose proof (occurrences_from_app t 0 p q) as Hin.
    rewrite <- Hparts in Hin. fold (occurrences t sentence) in Hin.
    destruct (occurrences t sentence) as [|k [|? ?]]; try discriminate.
    apply list_elem_of_singleton in Hin. simpl in Hin. subst k. reflexivity. }
  unfold show_typos_spans, mark_typos. simpl. fold t.
  assert (Hwrap : wrap_once sentence t
                  = Some (take_chars (String.length p) sentence +:+ tag t
                          +:+ drop_chars (String.length p + String.length t) sentence)).
  { clearbody t. destruct t as [|c t]; [congruence|].
    unfold wrap_once. rewrite Hocc. reflexivity. }
  rewrite (wrap_once_replace _ _ _ Hwrap).
  rewrite <- drop_chars_add. rewrite Hparts at 1 2.
  rewrite take_chars_app_length, drop_chars_app_length, drop_chars_app_length.
  unfold tag. rewrite !string_app_assoc. reflexivity.
Qed.

Lemma show_typos_spans_single_span_witness :
  show_typos_spans "é cat" [(2, 5)]
  = str_slice "é cat" 0 2
    +:+ "<i>" +:+ str_slice "é cat" 2 5 +:+ "</i>"
    +:+ str_slice "é cat" 5 (str_len "é cat").
Proof.
  apply (show_typos_spans_single_span "é cat" 2 5).
  - lia.
  - vm_compute. discriminate.
  - vm_compute. reflexivity.
Defined.
